(** * Token ledger and relay conversion engine

    A shallow embedding of [contracts/eoslib/generic_currency.hpp]: the
    [generic_currency<Code>] ledger (balances, supply, issue, transfer) and the
    [relay_contract] built on three such currencies (bonding-curve connector,
    conversion handlers, notification dispatch), followed by the properties
    stated about them.

    Storage is explicit: every handler is a state transformer that either
    returns a value with the new store or stops with an error.  A failed
    [assert] of the source aborts the action; the host then discards every
    write of that action ([commit]). *)

From Stdlib Require Import NArith ZArith Lia List.
From stdpp Require Import base option gmap fin_maps.
Import ListNotations.

Local Open Scope N_scope.

(** ** Names, errors and results *)

Definition account_name := N.
Definition action_name := N.

(** The 64-bit name codes of the two actions the header mentions. *)
Definition N_issue : action_name := 8516769789752901632.
Definition N_transfer : action_name := 14829575313431724032.

(** One constructor per way an action of the header can abort. *)
Inductive error : Type :=
| Unauthorized               (* require_auth refused *)
| InsufficientBalance        (* a token amount would drop below zero *)
| DegenerateCurve            (* a price was divided by a zero amount *)
| MalformedRequest           (* the memo does not unpack to relay_args *)
| SelfConversionRejected     (* "cannot convert to self" *)
| SlippageExceeded           (* output below the requested minimum *)
| UnexpectedNotification     (* "received unexpected notification of transfer" *)
| InvalidToCurrency          (* "invalid to currency" *)
| UnknownActionNotification  (* "unknown action notification" *)
| Overflow.                  (* an amount would not fit its 64 bits *)

Inductive result (A : Type) : Type :=
| Ok (a : A)
| Err (e : error).
Arguments Ok {A} a.
Arguments Err {A} e.

(** ** The state-and-error monad of an action *)

Definition ST (S A : Type) : Type := S -> result (A * S).

Definition ret {S A} (a : A) : ST S A := fun s => Ok (a, s).

Definition bind {S A B} (m : ST S A) (k : A -> ST S B) : ST S B :=
  fun s => match m s with
           | Ok (a, s') => k a s'
           | Err e => Err e
           end.

Definition fail {S A} (e : error) : ST S A := fun _ => Err e.

(** A pure computation that may abort, run inside an action. *)
Definition lift {S A} (r : result A) : ST S A :=
  fun s => match r with
           | Ok a => Ok (a, s)
           | Err e => Err e
           end.

(** [assert( cond, msg )]: abort with the error standing for [msg]. *)
Definition assert {S} (cond : bool) (e : error) : ST S unit :=
  if cond then ret tt else fail e.

Declare Scope st_scope.
Delimit Scope st_scope with st.
Notation "'let*' x ':=' m 'in' k" := (bind m (fun x => k))
  (at level 10, x name, m at level 100, k at level 200) : st_scope.
Notation "'let*' ' p ':=' m 'in' k" :=
  (bind m (fun x => match x with p => k end))
  (at level 10, p pattern, m at level 100, k at level 200) : st_scope.
Notation "m ;;; k" := (bind m (fun _ => k))
  (at level 100, k at level 200, right associativity) : st_scope.
Local Open Scope st_scope.

(** Modelled from the spec: the host that runs the actions is not part of
    the header.  Per the execution model an invocation either completes or is
    discarded as a whole: the writes of an action are kept only when it ran
    to its end. *)
Definition commit {S A} (m : ST S A) (s : S) : S :=
  match m s with
  | Ok (_, s') => s'
  | Err _ => s
  end.

(** ** Token amounts *)

Module Token.

(** The class [token<uint64_t, Contract>] and its operators come from a
    header that is not part of this file.  What this header fixes is the
    representation: the quantity of a token is a [uint64_t] (line 9), so an
    amount is a number below [limit].  Following the data model of the spec,
    amounts are exact and never negative: an operation whose exact result is
    no amount does not return one, it aborts the action. *)
Definition limit : N := 18446744073709551616.

(** Modelled from the spec: the sum of two amounts.  A sum that does not fit
    the 64 bits of the quantity aborts ([Overflow]). *)
Definition add (a b : N) : result N :=
  if a + b <? limit then Ok (a + b) else Err Overflow.

(** Modelled from the spec: the difference of two token amounts.  Amounts
    are never negative, so a difference that would be negative aborts
    ([InsufficientBalance]). *)
Definition sub (a b : N) : result N :=
  if b <=? a then Ok (a - b) else Err InsufficientBalance.

(** Modelled from the spec: the product of an amount and a weight, a base or
    a price.  A product that does not fit the 64 bits of the quantity aborts
    ([Overflow]). *)
Definition mul (a b : N) : result N :=
  if a * b <? limit then Ok (a * b) else Err Overflow.

(** Modelled from the spec: the quotient of two amounts.  It truncates
    toward zero, and a zero divisor aborts ([DegenerateCurve]). *)
Definition div (a b : N) : result N :=
  if b =? 0 then Err DegenerateCurve else Ok (a / b).

End Token.

(** ** Singleton tables *)

Module singleton.

(** [eosio::singleton<Code, Name, T>] is declared in [eoslib/singleton.hpp],
    which is not part of this file.  A table keeps at most one record per
    scope. *)

(** Modelled from the spec: [singleton::get_or_create].  It returns the
    record of the scope, or the default record when the scope has none (the
    "convenience default" of the ledger's [balance_of]); as the spec has it,
    "reading never creates a stored record": the table is left as it is. *)
Definition get_or_create {T} (def : T) (scope : account_name)
  : ST (gmap account_name T) T :=
  fun tbl => match tbl !! scope with
             | Some v => Ok (v, tbl)
             | None => Ok (def, tbl)
             end.

(** Modelled from the spec: [singleton::set] overwrites the record of the
    scope (the store's [set]). *)
Definition set {T} (scope : account_name) (v : T)
  : ST (gmap account_name T) unit :=
  fun tbl => Ok (tt, <[scope := v]> tbl).

End singleton.

(** ** [generic_currency<Code>] *)

Module generic_currency.

Record issue := { issue_to : account_name; issue_quantity : N }.

(** [transfer] and [transfer_memo] in one record; the ledger ignores the
    memo, the relay unpacks it. *)
Record transfer := {
  from : account_name;
  to : account_name;
  quantity : N;
  memo : list N
}.

Record account := { balance : N }.
Record currency_stats := { supply : N }.

(** The two tables of one currency.  (The header declares [stats] over
    [account]; [on(issue)] reads a [supply] field from it, so the table is
    modelled over [currency_stats].) *)
Record ledger := {
  accounts : gmap account_name account;
  stats : gmap account_name currency_stats
}.

Definition empty_ledger : ledger := {| accounts := ∅; stats := ∅ |}.

Definition on_accounts {A} (m : ST (gmap account_name account) A)
  : ST ledger A :=
  fun l => match m (accounts l) with
           | Ok (a, t) => Ok (a, {| accounts := t; stats := stats l |})
           | Err e => Err e
           end.

Definition on_stats {A} (m : ST (gmap account_name currency_stats) A)
  : ST ledger A :=
  fun l => match m (stats l) with
           | Ok (a, t) => Ok (a, {| accounts := accounts l; stats := t |})
           | Err e => Err e
           end.

Section Currency.

(** The template parameter, and who authorised the running action. *)
Variable Code : account_name.
Variable auth : account_name -> bool.

(** Modelled from the spec: [require_auth] is the host's; it lets the action
    go on when the account authorised it and aborts it otherwise. *)
Definition require_auth (a : account_name) : ST ledger unit :=
  assert (auth a) Unauthorized.

(** Modelled from the spec: [require_recipient] is the host's; it has the
    accounts notified of the action and touches no table. *)
Definition require_recipient (a b : account_name) : ST ledger unit :=
  ret tt.

Definition get_balance (owner : account_name) : ST ledger N :=
  let* a := on_accounts (singleton.get_or_create {| balance := 0 |} owner) in
  ret (balance a).

Definition set_balance (owner : account_name) (b : N) : ST ledger unit :=
  on_accounts (singleton.set owner {| balance := b |}).

(** [on( transfer )].  The credit is written as the exact sum: on every
    ledger whose balances sum to a 64-bit amount, which is what [on( issue )]
    keeps, that sum is an amount, the one [Token.add] returns. *)
Definition on_transfer (act : transfer) : ST ledger unit :=
  require_auth (from act) ;;;
  require_recipient (to act) (from act) ;;;
  let* b := get_balance (from act) in
  let* d := lift (Token.sub b (quantity act)) in
  set_balance (from act) d ;;;
  let* b' := get_balance (to act) in
  set_balance (to act) (b' + quantity act).

(** [inline_transfer] builds the transfer and stops: the header leaves the
    action around it and its sending open, so no table is touched here. *)
Definition inline_transfer (from_ to_ : account_name) (q : N)
           (memo_ : list N) : ST ledger unit :=
  let t := {| from := from_; to := to_; quantity := q; memo := memo_ |} in
  ret tt.

Definition on_issue (act : issue) : ST ledger unit :=
  require_auth Code ;;;
  let* s := on_stats (singleton.get_or_create {| supply := 0 |} Code) in
  let* supply' := lift (Token.add (supply s) (issue_quantity act)) in
  on_stats (singleton.set Code {| supply := supply' |}) ;;;
  let* b := get_balance Code in
  let* b' := lift (Token.add b (issue_quantity act)) in
  set_balance Code b' ;;;
  inline_transfer Code (issue_to act) (issue_quantity act) [].

End Currency.

(** *** Observations used by the properties *)

(** The balance a read would return, without performing the read. *)
Definition balance_of (l : ledger) (owner : account_name) : N :=
  match accounts l !! owner with
  | Some a => balance a
  | None => 0
  end.

Definition supply_of (Code : account_name) (l : ledger) : N :=
  match stats l !! Code with
  | Some s => supply s
  | None => 0
  end.

(** The ledger after storing [b] as the balance of [owner]. *)
Definition put (owner : account_name) (b : N) (l : ledger) : ledger :=
  {| accounts := <[owner := {| balance := b |}]> (accounts l);
     stats := stats l |}.

(** The ledger a successful transfer leaves: debit [from], then credit
    [to] (which reads the balance the debit left). *)
Definition after_transfer (act : transfer) (l : ledger) : ledger :=
  let l1 := put (from act) (balance_of l (from act) - quantity act) l in
  put (to act) (balance_of l1 (to act) + quantity act) l1.

(** The ledger after the supply of [Code] grew by [q]. *)
Definition mint (Code : account_name) (q : N) (l : ledger) : ledger :=
  {| accounts := accounts l;
     stats := <[Code := {| supply := supply_of Code l + q |}]> (stats l) |}.

(** The ledger a successful issue leaves: the supply and the balance of
    the currency's own account have grown by the quantity. *)
Definition after_issue (Code : account_name) (act : issue) (l : ledger)
  : ledger :=
  let q := issue_quantity act in
  put Code (balance_of l Code + q) (mint Code q l).

Definition sum_balances (l : ledger) : N :=
  map_fold (fun _ a acc => balance a + acc) 0 (accounts l).

Definition conserved (Code : account_name) (l : ledger) : Prop :=
  supply_of Code l = sum_balances l.

(** An operation of the ledger together with its authorisation. *)
Inductive op : Type :=
| OpIssue (auth : account_name -> bool) (act : issue)
| OpTransfer (auth : account_name -> bool) (act : transfer).

Definition run_op (Code : account_name) (o : op) : ST ledger unit :=
  match o with
  | OpIssue auth act => on_issue Code auth act
  | OpTransfer auth act => on_transfer auth act
  end.

(** The ledgers seen before the first operation and after each one. *)
Fixpoint history (Code : account_name) (l : ledger) (ops : list op)
  : list ledger :=
  match ops with
  | [] => [l]
  | o :: ops' => l :: history Code (commit (run_op Code o) l) ops'
  end.

End generic_currency.

(** ** [relay_contract<RelayAccount, FirstCurrency, SecondCurrency>] *)

Module relay_contract.

Import generic_currency.

(** [connector<CurrencyType, Weight, Base>]: the currency it prices and the
    two template constants (of type [uint32_t] in the header; the properties
    hold for every value). *)
Record connector := {
  currency_type : account_name;
  Weight : N;
  Base : N
}.

Record relay_state := {
  supply : N;   (* total supply held by all users *)
  balance : N   (* supply held by relay in its own balance *)
}.

(** The header declares the second field as [min_return_currency] and reads
    it as [min_return]. *)
Record relay_args := {
  to_currency_type : account_name;
  min_return : N
}.

(** What the relay reads and writes: the ledgers of the currencies (by code),
    its stored [relay_state], and the payments it has sent out. *)
Record world := {
  ledgers : gmap account_name ledger;
  stored_state : relay_state;
  sent : list (account_name * N)
}.

Definition ledger_of (w : world) (code : account_name) : ledger :=
  match ledgers w !! code with
  | Some l => l
  | None => empty_ledger
  end.

(** Run a handler of [generic_currency<code>] on that currency's ledger. *)
Definition in_currency {A} (code : account_name) (m : ST ledger A)
  : ST world A :=
  fun w => match m (ledger_of w code) with
           | Ok (a, l) =>
               Ok (a, {| ledgers := <[code := l]> (ledgers w);
                         stored_state := stored_state w;
                         sent := sent w |})
           | Err e => Err e
           end.

(** Which of the three transfer types a handler was instantiated for. *)
Inductive currency_kind : Type := KRelay | KFirst | KSecond.

Section Relay.

Variables RelayAccount FirstCurrency SecondCurrency : account_name.
Variable auth : account_name -> bool.

Definition code_of (k : currency_kind) : account_name :=
  match k with
  | KRelay => RelayAccount
  | KFirst => FirstCurrency
  | KSecond => SecondCurrency
  end.

(** Modelled from the spec: [first_connector] is used but not declared in
    the header; it is the connector of the first currency with the default
    [Weight] and [Base] of the template (weight one half). *)
Definition first_connector : connector :=
  {| currency_type := FirstCurrency; Weight := 500000; Base := 1000000 |}.

(** Modelled from the spec: [second_connector], likewise, for the second
    currency. *)
Definition second_connector : connector :=
  {| currency_type := SecondCurrency; Weight := 500000; Base := 1000000 |}.

Definition convert_to_relay (c : connector) (in_ : N) (state : relay_state)
  : ST world (N * relay_state) :=
  let* balance_ := in_currency (currency_type c)
                               (get_balance RelayAccount) in
  (* balance already changed when transfer executed, get pre-transfer balance *)
  let* previous_balance := lift (Token.sub balance_ in_) in
  let* init_num := lift (Token.mul previous_balance (Base c)) in
  let* init_den := lift (Token.mul (Weight c) (supply state)) in
  let* init_price := lift (Token.div init_num init_den) in
  let* init_out := lift (Token.mul init_price in_) in
  let* out_num := lift (Token.mul balance_ (Base c)) in
  let* out_supply := lift (Token.add (supply state) init_out) in
  let* out_den := lift (Token.mul (Weight c) out_supply) in
  let* out_price := lift (Token.div out_num out_den) in
  let* final_out := lift (Token.mul out_price in_) in
  let* balance1 := lift (Token.add (balance state) final_out) in
  let state1 := {| supply := supply state; balance := balance1 |} in
  let* supply2 := lift (Token.add (supply state1) final_out) in
  let state2 := {| supply := supply2; balance := balance state1 |} in
  ret (final_out, state2).

(** The header multiplies [init_price] by a name [in] that this routine
    does not declare; [stray_in] stands for it. *)
Definition convert_from_relay_with (stray_in : N) (c : connector)
           (relay_in : N) (state : relay_state)
  : ST world (N * relay_state) :=
  let* to_balance := in_currency (currency_type c)
                                 (get_balance RelayAccount) in
  let* init_num := lift (Token.mul to_balance (Base c)) in
  let* init_den := lift (Token.mul (Weight c) (supply state)) in
  let* init_price := lift (Token.div init_num init_den) in
  let* init_out := lift (Token.mul init_price stray_in) in
  let* supply1 := lift (Token.sub (supply state) relay_in) in
  let state1 := {| supply := supply1; balance := balance state |} in
  let* balance2 := lift (Token.sub (balance state1) relay_in) in
  let state2 := {| supply := supply state1; balance := balance2 |} in
  let* rest := lift (Token.sub to_balance init_out) in
  let* out_num := lift (Token.mul rest (Base c)) in
  let* out_den := lift (Token.mul (Weight c) (supply state2)) in
  let* out_price := lift (Token.div out_num out_den) in
  let* out := lift (Token.mul out_price relay_in) in
  ret (out, state2).

(** The one sound reading of [in] (spec, 4.2): the amount being redeemed. *)
Definition convert_from_relay (c : connector) (relay_in : N)
           (state : relay_state) : ST world (N * relay_state) :=
  convert_from_relay_with relay_in c relay_in state.

(** Modelled from the spec: [save_and_send] is called but not defined in
    the header.  Per the dispatcher's Settling step it fails with
    [SlippageExceeded] when the output is below the requested minimum, and
    otherwise persists the relay state and sends the output to the trader. *)
Definition save_and_send (trader : account_name) (state : relay_state)
           (output min_ret : N) : ST world unit :=
  assert (negb (output <? min_ret)) SlippageExceeded ;;;
  (fun w => Ok (tt, {| ledgers := ledgers w;
                       stored_state := state;
                       sent := sent w ++ [(trader, output)] |})).

(** Modelled from the spec: [read_relay_state] is called but not defined in
    the header; it loads the stored relay state. *)
Definition read_relay_state : ST world relay_state :=
  fun w => Ok (stored_state w, w).

(** Modelled from the spec: [unpack<relay_args>]; a conversion request is
    the pair of target currency and minimum return, any other memo is
    malformed. *)
Definition unpack_relay_args (memo_ : list N) : result relay_args :=
  match memo_ with
  | [t; m] => Ok {| to_currency_type := t; min_return := m |}
  | _ => Err MalformedRequest
  end.

(** [on_convert( relay_currency::transfer, ... )]: RELAY tokens received,
    convert to one of the connector currencies. *)
Definition on_convert_relay (trans : transfer) (args : relay_args)
           (state : relay_state) : ST world unit :=
  if to_currency_type args =? FirstCurrency then
    let* '(output, state') :=
      convert_from_relay first_connector (quantity trans) state in
    save_and_send (from trans) state' output (min_return args)
  else if to_currency_type args =? SecondCurrency then
    let* '(output, state') :=
      convert_from_relay second_connector (quantity trans) state in
    save_and_send (from trans) state' output (min_return args)
  else
    fail InvalidToCurrency.

(** [on_convert<ConnectorType>]: a connector currency received. *)
Definition on_convert (ConnectorType : connector) (trans : transfer)
           (args : relay_args) (state : relay_state) : ST world unit :=
  (* convert to relay *)
  let* '(relay_out, state1) :=
    convert_to_relay ConnectorType (quantity trans) state in
  if to_currency_type args =? RelayAccount then
    save_and_send (from trans) state1 relay_out (min_return args)
  else
    let* '(output, state2) :=
      convert_from_relay ConnectorType relay_out state1 in
    save_and_send (from trans) state2 output (min_return args).

Definition start_convert (k : currency_kind) (trans : transfer)
  : ST world unit :=
  let* args := lift (unpack_relay_args (memo trans)) in
  assert (negb (to_currency_type args =? code_of k))
         SelfConversionRejected ;;;
  let* state := read_relay_state in
  match k with
  | KRelay => on_convert_relay trans args state
  | KFirst => on_convert first_connector trans args state
  | KSecond => on_convert second_connector trans args state
  end.

(** [on( relay_currency::transfer )] *)
Definition on_relay_transfer (trans : transfer) : ST world unit :=
  in_currency RelayAccount (on_transfer auth trans) ;;;
  if to trans =? RelayAccount then start_convert KRelay trans
  else ret tt.

(** [on<Currency>( Currency::transfer )] *)
Definition on_currency_transfer (k : currency_kind) (trans : transfer)
  : ST world unit :=
  if to trans =? RelayAccount then start_convert k trans
  else assert (from trans =? RelayAccount) UnexpectedNotification.

(** [apply( code, action )]; [payload] is what [unpack_action] reads. *)
Definition apply (code : account_name) (action : action_name)
           (payload : transfer) : ST world unit :=
  if code =? RelayAccount then
    if action =? N_transfer then on_relay_transfer payload else ret tt
  else if code =? FirstCurrency then
    if action =? N_transfer then on_currency_transfer KFirst payload
    else ret tt
  else if code =? FirstCurrency then
    if action =? N_transfer then on_currency_transfer KSecond payload
    else ret tt
  else
    fail UnknownActionNotification.

End Relay.

(** *** Observations used by the properties *)

(** The relay's holding of a connector's currency, as a read would see it. *)
Definition connector_balance (RelayAccount : account_name) (c : connector)
           (w : world) : N :=
  balance_of (ledger_of w (currency_type c)) RelayAccount.

(** The world after a handler ran in the currency [code] without changing
    its ledger. *)
Definition after_read (code : account_name) (w : world) : world :=
  {| ledgers := <[code := ledger_of w code]> (ledgers w);
     stored_state := stored_state w;
     sent := sent w |}.

(** The amounts the two conversions return when nothing aborts, from the
    connector balance [bal] and the relay supply [sup]. *)
Definition to_relay_end_price (c : connector) (bal sup amount_in : N) : N :=
  let init_price := (bal - amount_in) * Base c / (Weight c * sup) in
  let init_out := init_price * amount_in in
  bal * Base c / (Weight c * (sup + init_out)).

Definition to_relay_out (c : connector) (bal sup amount_in : N) : N :=
  to_relay_end_price c bal sup amount_in * amount_in.

Definition from_relay_init_out (c : connector) (bal sup stray_in : N) : N :=
  bal * Base c / (Weight c * sup) * stray_in.

Definition from_relay_end_price (c : connector)
           (bal sup stray_in relay_in : N) : N :=
  let init_out := from_relay_init_out c bal sup stray_in in
  (bal - init_out) * Base c / (Weight c * (sup - relay_in)).

Definition from_relay_out (c : connector) (bal sup stray_in relay_in : N)
  : N :=
  from_relay_end_price c bal sup stray_in relay_in * relay_in.

(** Every product and sum [convert_to_relay] forms is an amount (fits 64
    bits). *)
Definition to_relay_fits (c : connector) (bal : N) (st : relay_state)
           (amount_in : N) : Prop :=
  let init_price := (bal - amount_in) * Base c / (Weight c * supply st) in
  let init_out := init_price * amount_in in
  let out := to_relay_out c bal (supply st) amount_in in
  (bal - amount_in) * Base c < Token.limit
  /\ Weight c * supply st < Token.limit
  /\ init_out < Token.limit
  /\ bal * Base c < Token.limit
  /\ supply st + init_out < Token.limit
  /\ Weight c * (supply st + init_out) < Token.limit
  /\ out < Token.limit
  /\ balance st + out < Token.limit
  /\ supply st + out < Token.limit.

(** Every product [convert_from_relay] forms is an amount. *)
Definition from_relay_fits (c : connector) (bal : N) (st : relay_state)
           (stray_in relay_in : N) : Prop :=
  let init_out := from_relay_init_out c bal (supply st) stray_in in
  bal * Base c < Token.limit
  /\ Weight c * supply st < Token.limit
  /\ init_out < Token.limit
  /\ (bal - init_out) * Base c < Token.limit
  /\ Weight c * (supply st - relay_in) < Token.limit
  /\ from_relay_out c bal (supply st) stray_in relay_in < Token.limit.

(** Connector currency to relay and straight back through the same
    connector. *)
Definition round_trip (RelayAccount : account_name) (c : connector) (x : N)
           (state : relay_state) : ST world (N * relay_state) :=
  let* '(relay_out, state1) := convert_to_relay RelayAccount c x state in
  convert_from_relay RelayAccount c relay_out state1.

(** The spec's steps 2 to 6 for [convert_to_relay], over the integers, with
    quotients that truncate toward zero. *)
Definition spec_convert_to_relay
           (Weight_ Base_ connectorBalance supply_ amountIn : Z) : Z :=
  let previousBalance := (connectorBalance - amountIn)%Z in
  let startPrice :=
    (previousBalance * Base_ ÷ (Weight_ * supply_))%Z in
  let provisionalOut := (startPrice * amountIn)%Z in
  let endPrice :=
    (connectorBalance * Base_ ÷ (Weight_ * (supply_ + provisionalOut)))%Z in
  (endPrice * amountIn)%Z.

(** The connector-to-connector path as the dispatcher is described: to
    relay on the source connector, from relay on the target connector. *)
Definition spec_connector_to_connector (RelayAccount : account_name)
           (source target : connector) (x : N) (state : relay_state)
  : ST world (N * relay_state) :=
  let* '(relay_out, state1) :=
    convert_to_relay RelayAccount source x state in
  convert_from_relay RelayAccount target relay_out state1.

End relay_contract.

(** ** Sample inputs

    The relay is account 1, its connector currencies are 2 and 3, traders are
    7 and 8. *)

Module samples.

Import generic_currency relay_contract.

Definition everyone : account_name -> bool := fun _ => true.

(** An issue of 100, a transfer of 30 of them to account 7, and a transfer
    of 50 from account 7 that its balance does not cover. *)
Definition sample_ops : list op :=
  [ OpIssue everyone {| issue_to := 7; issue_quantity := 100 |};
    OpTransfer everyone
      {| from := 1; to := 7; quantity := 30; memo := [] |};
    OpTransfer everyone
      {| from := 7; to := 8; quantity := 50; memo := [] |} ].

(** Account 7 holds 10 and is asked for 30. *)
Definition sample_ledger : ledger := put 7 10 empty_ledger.

Definition sample_transfer : transfer :=
  {| from := 7; to := 8; quantity := 30; memo := [] |}.

(** A ledger in which the relay holds [amount]. *)
Definition holding (amount : N) : ledger := put 1 amount empty_ledger.

(** The relay holds [first] of currency 2 and [second] of currency 3. *)
Definition relay_world (first second : N) (st : relay_state) : world :=
  {| ledgers := {[ 2 := holding first; 3 := holding second ]};
     stored_state := st;
     sent := [] |}.

Definition even_state : relay_state :=
  {| supply := 1000000; balance := 1000000 |}.

(** The connector of currency 2, with the default weight one half. *)
Definition first : connector := first_connector 2.

(** Trader 7 sends 100 to the relay and asks for currency 3, any amount. *)
Definition request : transfer :=
  {| from := 7; to := 1; quantity := 100; memo := [3; 0] |}.

End samples.

(** * Properties *)

(** ** Running the monad *)

Section MonadFacts.

Context {S A B : Type}.

Lemma bind_Ok (m : ST S A) (k : A -> ST S B) s a s' :
  m s = Ok (a, s') -> bind m k s = k a s'.
Proof. intros H. unfold bind. now rewrite H. Qed.

Lemma bind_Err (m : ST S A) (k : A -> ST S B) s e :
  m s = Err e -> bind m k s = Err e.
Proof. intros H. unfold bind. now rewrite H. Qed.

Lemma bind_lift_inv (r : result A) (k : A -> ST S B) s v :
  bind (lift r) k s = Ok v -> exists a, r = Ok a /\ k a s = Ok v.
Proof.
  unfold bind, lift. destruct r as [a|e]; [eauto | discriminate].
Qed.

End MonadFacts.

(** ** Token arithmetic *)

Lemma add_Ok a b : a + b < Token.limit -> Token.add a b = Ok (a + b).
Proof. intros H. unfold Token.add. now apply N.ltb_lt in H as ->. Qed.

Lemma add_inv a b r : Token.add a b = Ok r -> r = a + b /\ a + b < Token.limit.
Proof.
  unfold Token.add. destruct (N.ltb_spec (a + b) Token.limit);
    [intros [= <-]; auto | discriminate].
Qed.

Lemma add_Err a b : Token.limit <= a + b -> Token.add a b = Err Overflow.
Proof. intros H. unfold Token.add. now apply N.ltb_ge in H as ->. Qed.

Lemma mul_Ok a b : a * b < Token.limit -> Token.mul a b = Ok (a * b).
Proof. intros H. unfold Token.mul. now apply N.ltb_lt in H as ->. Qed.

Lemma mul_inv a b r : Token.mul a b = Ok r -> r = a * b /\ a * b < Token.limit.
Proof.
  unfold Token.mul. destruct (N.ltb_spec (a * b) Token.limit);
    [intros [= <-]; auto | discriminate].
Qed.

Lemma mul_Err a b : Token.limit <= a * b -> Token.mul a b = Err Overflow.
Proof. intros H. unfold Token.mul. now apply N.ltb_ge in H as ->. Qed.

Lemma sub_Ok a b : b <= a -> Token.sub a b = Ok (a - b).
Proof. intros H. unfold Token.sub. now apply N.leb_le in H as ->. Qed.

Lemma sub_inv a b r : Token.sub a b = Ok r -> r = a - b /\ b <= a.
Proof.
  unfold Token.sub. destruct (N.leb_spec b a);
    [intros [= <-]; auto | discriminate].
Qed.

Lemma sub_Err a b : a < b -> Token.sub a b = Err InsufficientBalance.
Proof. intros H. unfold Token.sub. now apply N.leb_gt in H as ->. Qed.

Lemma div_Ok a b : 0 < b -> Token.div a b = Ok (a / b).
Proof.
  intros H. unfold Token.div.
  destruct (N.eqb_spec b 0) as [->|_]; [lia | reflexivity].
Qed.

Lemma div_inv a b r : Token.div a b = Ok r -> r = a / b /\ 0 < b.
Proof.
  unfold Token.div. destruct (N.eqb_spec b 0);
    [discriminate | intros [= <-]; split; [reflexivity | lia]].
Qed.

Lemma div_Err a : Token.div a 0 = Err DegenerateCurve.
Proof. reflexivity. Qed.

Lemma lift_Ok {S A} (r : result A) (a : A) (s : S) :
  r = Ok a -> lift r s = Ok (a, s).
Proof. now intros ->. Qed.

Lemma lift_Err {S A} (r : result A) e (s : S) :
  r = Err e -> lift r s = Err e.
Proof. now intros ->. Qed.

(** ** The ledger *)

Module ledger_facts.

Import generic_currency.

Lemma ledger_eta l : {| accounts := accounts l; stats := stats l |} = l.
Proof. now destruct l. Qed.

Lemma get_balance_run owner l :
  get_balance owner l = Ok (balance_of l owner, l).
Proof.
  unfold get_balance, bind, on_accounts, singleton.get_or_create,
    balance_of, ret.
  destruct (accounts l !! owner) as [a|]; now rewrite ledger_eta.
Qed.

Lemma set_balance_run owner b l :
  set_balance owner b l = Ok (tt, put owner b l).
Proof. reflexivity. Qed.

Lemma balance_of_put o b l a :
  balance_of (put o b l) a = if decide (a = o) then b else balance_of l a.
Proof.
  unfold balance_of, put; cbn. case_decide as Hd.
  - subst. now rewrite lookup_insert_eq.
  - now rewrite lookup_insert_ne.
Qed.

Lemma supply_of_put Code o b l : supply_of Code (put o b l) = supply_of Code l.
Proof. reflexivity. Qed.

Lemma sum_insert_fresh (m : gmap account_name account) o a :
  m !! o = None ->
  map_fold (fun _ x acc => balance x + acc) 0 (<[o := a]> m)
  = balance a + map_fold (fun _ x acc => balance x + acc) 0 m.
Proof.
  intros H. apply (map_fold_insert_L (fun _ x acc => balance x + acc)); [|exact H].
  intros. lia.
Qed.

Lemma sum_balances_put o b l :
  sum_balances (put o b l) + balance_of l o = sum_balances l + b.
Proof.
  unfold sum_balances, balance_of, put; cbn.
  destruct (accounts l !! o) as [a|] eqn:E.
  - rewrite <- (insert_delete_eq (accounts l)).
    rewrite <- (insert_delete_id (accounts l) o a E) at 2.
    rewrite !sum_insert_fresh by apply lookup_delete_eq. cbn [balance]. lia.
  - rewrite sum_insert_fresh by exact E. cbn [balance]. lia.
Qed.

(** No balance exceeds the sum of all balances. *)
Lemma balance_le_sum l o : balance_of l o <= sum_balances l.
Proof.
  unfold sum_balances, balance_of.
  destruct (accounts l !! o) as [a|] eqn:E; [|lia].
  rewrite <- (insert_delete_id (accounts l) o a E).
  rewrite sum_insert_fresh by apply lookup_delete_eq. lia.
Qed.

(** *** What a transfer does *)

Lemma on_transfer_unauthorized auth act l :
  auth (from act) = false -> on_transfer auth act l = Err Unauthorized.
Proof.
  intros H. unfold on_transfer, require_auth, assert.
  now rewrite H.
Qed.

Lemma on_transfer_insufficient auth act l :
  auth (from act) = true ->
  balance_of l (from act) < quantity act ->
  on_transfer auth act l = Err InsufficientBalance.
Proof.
  intros Ha Hlt. unfold on_transfer, require_auth, require_recipient, assert.
  rewrite Ha.
  rewrite (bind_Ok _ _ l tt l) by reflexivity.
  rewrite (bind_Ok _ _ l tt l) by reflexivity.
  rewrite (bind_Ok _ _ _ _ _ (get_balance_run _ _)).
  apply bind_Err. unfold lift. now rewrite sub_Err.
Qed.

Lemma on_transfer_run auth act l :
  auth (from act) = true ->
  quantity act <= balance_of l (from act) ->
  on_transfer auth act l = Ok (tt, after_transfer act l).
Proof.
  intros Ha Hle. unfold on_transfer, require_auth, require_recipient, assert.
  rewrite Ha.
  rewrite (bind_Ok _ _ l tt l) by reflexivity.
  rewrite (bind_Ok _ _ l tt l) by reflexivity.
  rewrite (bind_Ok _ _ _ _ _ (get_balance_run _ _)).
  erewrite bind_Ok by (unfold lift; now rewrite sub_Ok).
  rewrite (bind_Ok _ _ _ _ _ (set_balance_run _ _ _)).
  rewrite (bind_Ok _ _ _ _ _ (get_balance_run _ _)).
  now rewrite set_balance_run.
Qed.

Lemma balance_of_after_transfer act l a :
  balance_of (after_transfer act l) a =
  let b := balance_of l a in
  let b1 := if decide (a = from act) then b - quantity act else b in
  if decide (a = to act) then b1 + quantity act else b1.
Proof.
  unfold after_transfer; cbn zeta.
  rewrite !balance_of_put.
  repeat case_decide; subst; try reflexivity; congruence.
Qed.

Lemma sum_balances_after_transfer act l :
  quantity act <= balance_of l (from act) ->
  sum_balances (after_transfer act l) = sum_balances l.
Proof.
  intros Hle. unfold after_transfer; cbn zeta.
  set (l1 := put (from act) _ l).
  pose proof (sum_balances_put (to act)
                (balance_of l1 (to act) + quantity act) l1) as H2.
  pose proof (sum_balances_put (from act)
                (balance_of l (from act) - quantity act) l) as H1.
  fold l1 in H1. lia.
Qed.

Lemma supply_of_after_transfer Code act l :
  supply_of Code (after_transfer act l) = supply_of Code l.
Proof. reflexivity. Qed.

(** The credit of a transfer is an amount on every ledger whose balances
    sum to an amount: the sum [on(transfer)] stores is the one [Token.add]
    returns. *)
Lemma credit_fits act l :
  sum_balances l < Token.limit ->
  quantity act <= balance_of l (from act) ->
  forall a, balance_of (after_transfer act l) a < Token.limit.
Proof.
  intros Hs Hq a.
  pose proof (sum_balances_after_transfer act l Hq) as Hsum.
  pose proof (balance_le_sum (after_transfer act l) a). lia.
Qed.

(** *** What an issue does *)

Lemma on_issue_unauthorized Code auth act l :
  auth Code = false -> on_issue Code auth act l = Err Unauthorized.
Proof.
  intros H. unfold on_issue, require_auth, assert.
  now rewrite H.
Qed.

Lemma stats_read_run Code l :
  on_stats (singleton.get_or_create {| supply := 0 |} Code) l
  = Ok ({| supply := supply_of Code l |}, l).
Proof.
  unfold on_stats, singleton.get_or_create, supply_of.
  destruct (stats l !! Code) as [[s]|]; now rewrite ledger_eta.
Qed.

Lemma on_issue_run Code auth act l :
  auth Code = true ->
  supply_of Code l + issue_quantity act < Token.limit ->
  balance_of l Code + issue_quantity act < Token.limit ->
  on_issue Code auth act l = Ok (tt, after_issue Code act l).
Proof.
  intros Ha Hs Hb. unfold on_issue, require_auth, assert. rewrite Ha.
  rewrite (bind_Ok _ _ l tt l) by reflexivity.
  rewrite (bind_Ok _ _ _ _ _ (stats_read_run _ _)).
  rewrite (bind_Ok _ _ _ _ _ (lift_Ok _ _ _ (add_Ok _ _ Hs))).
  rewrite (bind_Ok _ _ l tt (mint Code (issue_quantity act) l))
    by reflexivity.
  rewrite (bind_Ok _ _ _ _ _ (get_balance_run _ _)).
  change (balance_of (mint Code (issue_quantity act) l) Code)
    with (balance_of l Code).
  rewrite (bind_Ok _ _ _ _ _ (lift_Ok _ _ _ (add_Ok _ _ Hb))).
  rewrite (bind_Ok _ _ _ _ _ (set_balance_run _ _ _)).
  reflexivity.
Qed.

Lemma on_issue_inv Code auth act l l' :
  on_issue Code auth act l = Ok (tt, l') ->
  auth Code = true
  /\ supply_of Code l + issue_quantity act < Token.limit
  /\ balance_of l Code + issue_quantity act < Token.limit
  /\ l' = after_issue Code act l.
Proof.
  intros H.
  destruct (auth Code) eqn:Ha;
    [|rewrite on_issue_unauthorized in H by exact Ha; discriminate].
  pose proof H as H0.
  unfold on_issue, require_auth, assert in H. rewrite Ha in H.
  rewrite (bind_Ok _ _ l tt l) in H by reflexivity.
  rewrite (bind_Ok _ _ _ _ _ (stats_read_run _ _)) in H.
  apply bind_lift_inv in H as (s' & [-> Hs]%add_inv & H).
  rewrite (bind_Ok _ _ l tt (mint Code (issue_quantity act) l)) in H
    by reflexivity.
  rewrite (bind_Ok _ _ _ _ _ (get_balance_run _ _)) in H.
  apply bind_lift_inv in H as (b' & [-> Hb]%add_inv & _).
  cbn [supply] in Hs.
  change (balance_of (mint Code (issue_quantity act) l) Code)
    with (balance_of l Code) in Hb.
  rewrite on_issue_run in H0 by assumption.
  injection H0 as <-. auto.
Qed.

Lemma supply_of_mint Code q l :
  supply_of Code (mint Code q l) = supply_of Code l + q.
Proof. unfold supply_of at 1, mint; cbn. now rewrite lookup_insert_eq. Qed.

Lemma supply_of_after_issue Code act l :
  supply_of Code (after_issue Code act l)
  = supply_of Code l + issue_quantity act.
Proof.
  unfold after_issue; cbn zeta. rewrite supply_of_put. apply supply_of_mint.
Qed.

Lemma sum_balances_after_issue Code act l :
  sum_balances (after_issue Code act l)
  = sum_balances l + issue_quantity act.
Proof.
  unfold after_issue; cbn zeta.
  pose proof (sum_balances_put Code
                (balance_of l Code + issue_quantity act)
                (mint Code (issue_quantity act) l)) as H.
  change (balance_of (mint Code (issue_quantity act) l) Code)
    with (balance_of l Code) in H.
  change (sum_balances (mint Code (issue_quantity act) l))
    with (sum_balances l) in H.
  lia.
Qed.

(** What the host keeps of an operation: the ledger a transfer or an issue
    leaves when it ran to its end, the old ledger otherwise. *)
Lemma commit_cases Code o l :
  commit (run_op Code o) l = l
  \/ (exists auth act, o = OpTransfer auth act
        /\ quantity act <= balance_of l (from act)
        /\ commit (run_op Code o) l = after_transfer act l)
  \/ (exists auth act, o = OpIssue auth act
        /\ supply_of Code l + issue_quantity act < Token.limit
        /\ commit (run_op Code o) l = after_issue Code act l).
Proof.
  unfold commit. destruct o as [auth act|auth act]; cbn [run_op].
  - destruct (on_issue Code auth act l) as [[[] l']|e] eqn:E; [|now left].
    apply on_issue_inv in E as (_ & Hs & _ & ->).
    right; right. eauto.
  - destruct (auth (from act)) eqn:Ha;
      [|rewrite on_transfer_unauthorized by exact Ha; now left].
    destruct (N.le_gt_cases (quantity act) (balance_of l (from act)))
      as [Hle|Hgt];
      [|rewrite on_transfer_insufficient by assumption; now left].
    rewrite on_transfer_run by assumption. right; left. eauto.
Qed.

(** Every operation, committed or aborted, keeps supply and balances in
    step. *)
Lemma commit_conserved Code o l :
  conserved Code l -> conserved Code (commit (run_op Code o) l).
Proof.
  unfold conserved. intros H.
  destruct (commit_cases Code o l)
    as [->|[(auth & act & _ & Hq & ->)|(auth & act & _ & _ & ->)]].
  - exact H.
  - now rewrite supply_of_after_transfer, sum_balances_after_transfer.
  - rewrite supply_of_after_issue, sum_balances_after_issue. lia.
Qed.

(** Nor does any operation take the supply out of its 64 bits. *)
Lemma commit_supply_fits Code o l :
  supply_of Code l < Token.limit ->
  supply_of Code (commit (run_op Code o) l) < Token.limit.
Proof.
  intros H.
  destruct (commit_cases Code o l)
    as [->|[(auth & act & _ & Hq & ->)|(auth & act & _ & Hs & ->)]].
  - exact H.
  - now rewrite supply_of_after_transfer.
  - now rewrite supply_of_after_issue.
Qed.

End ledger_facts.

(** ** Claims about the ledger *)

Section LedgerClaims.

Import generic_currency ledger_facts.

(** C1 (conservation).  Starting from a ledger whose recorded supply equals
    the sum of its balances, that equality holds in every ledger of the
    history of any sequence of issue and transfer operations, that is before
    and after each of them.  An issue that goes through has raised the
    supply and the sum of balances by the issued quantity, and the supply
    still fits its 64 bits; an authorised issue goes through whenever the
    raised supply fits.  A transfer, whether it goes through or aborts,
    leaves supply and sum as they were.  From a supply that fits 64 bits,
    the supply and every balance fit them throughout the history. *)
Theorem supply_equals_sum_of_balances Code l ops :
  conserved Code l ->
  Forall (conserved Code) (history Code l ops)
  /\ (forall auth act l',
        on_issue Code auth act l = Ok (tt, l') ->
        supply_of Code l' = supply_of Code l + issue_quantity act
        /\ sum_balances l' = sum_balances l + issue_quantity act
        /\ supply_of Code l' < Token.limit)
  /\ (forall auth act,
        auth Code = true ->
        supply_of Code l + issue_quantity act < Token.limit ->
        exists l', on_issue Code auth act l = Ok (tt, l'))
  /\ (forall auth act,
        let l' := commit (on_transfer auth act) l in
        supply_of Code l' = supply_of Code l
        /\ sum_balances l' = sum_balances l)
  /\ (supply_of Code l < Token.limit ->
      Forall (fun l' => supply_of Code l' < Token.limit
                        /\ forall a, balance_of l' a < Token.limit)
             (history Code l ops)).
Proof.
  intros Hl. split; [|split; [|split; [|split]]].
  - revert l Hl. induction ops as [|o ops IH]; intros l Hl; cbn [history].
    + now constructor.
    + constructor; [exact Hl|].
      apply IH. now apply commit_conserved.
  - intros auth act l' H.
    apply on_issue_inv in H as (_ & Hs & _ & ->).
    rewrite supply_of_after_issue, sum_balances_after_issue. auto.
  - intros auth act Ha Hs. eexists. apply on_issue_run; [exact Ha|exact Hs|].
    pose proof (balance_le_sum l Code). unfold conserved in Hl. lia.
  - intros auth act l'. subst l'.
    destruct (commit_cases Code (OpTransfer auth act) l)
      as [E|[(auth' & act' & [= <- <-] & Hq & E)|(? & ? & [=] & _)]];
      cbn [run_op] in E; rewrite E.
    + auto.
    + now rewrite supply_of_after_transfer, sum_balances_after_transfer.
  - intros Hfit. revert l Hl Hfit.
    induction ops as [|o ops IH]; intros l Hl Hfit; cbn [history].
    + constructor; [|constructor]. split; [exact Hfit|].
      intros a. pose proof (balance_le_sum l a). unfold conserved in Hl. lia.
    + constructor.
      * split; [exact Hfit|].
        intros a. pose proof (balance_le_sum l a).
        unfold conserved in Hl. lia.
      * apply IH; [now apply commit_conserved|now apply commit_supply_fits].
Qed.

(** C4 (balance check of transfer).  For a transfer authorised by its
    sender: when the sender's balance is strictly below the amount, the
    transfer aborts with [InsufficientBalance] and every balance is as
    before; otherwise it goes through, and every balance is the old one
    debited by the amount if the account is the sender and then credited by
    the amount if it is the recipient. *)
Theorem transfer_checks_balance auth act l :
  auth (from act) = true ->
  (balance_of l (from act) < quantity act ->
     on_transfer auth act l = Err InsufficientBalance
     /\ commit (on_transfer auth act) l = l)
  /\ (quantity act <= balance_of l (from act) ->
      exists l',
        on_transfer auth act l = Ok (tt, l')
        /\ (forall a,
              balance_of l' a =
              let b := balance_of l a in
              let b1 := if decide (a = from act)
                        then b - quantity act else b in
              if decide (a = to act) then b1 + quantity act else b1)
        /\ (from act <> to act ->
              balance_of l' (from act)
              = balance_of l (from act) - quantity act
              /\ balance_of l' (to act)
                 = balance_of l (to act) + quantity act)).
Proof.
  intros Ha. split.
  - intros Hlt. pose proof (on_transfer_insufficient auth act l Ha Hlt) as E.
    split; [exact E|]. unfold commit. now rewrite E.
  - intros Hle. exists (after_transfer act l).
    split; [now apply on_transfer_run|]. split.
    + intros a. apply balance_of_after_transfer.
    + intros Hne. rewrite !balance_of_after_transfer. cbn zeta.
      repeat case_decide; try congruence. split; reflexivity.
Qed.

(** C8 (reading a balance).  For an account with no stored record,
    [get_balance] returns zero, and the read changes nothing that is stored:
    the ledger after the call is the ledger before it, with the same records
    and the same balances. *)
Theorem get_balance_of_absent_account owner l :
  accounts l !! owner = None ->
  get_balance owner l = Ok (0, l)
  /\ forall l', get_balance owner l = Ok (0, l') ->
                accounts l' = accounts l
                /\ stats l' = stats l
                /\ dom (accounts l') = dom (accounts l)
                /\ forall a, balance_of l' a = balance_of l a.
Proof.
  intros Hnone.
  assert (E : get_balance owner l = Ok (0, l)).
  { rewrite get_balance_run. unfold balance_of. now rewrite Hnone. }
  split; [exact E|].
  intros l' H. rewrite E in H. injection H as <-. auto.
Qed.

End LedgerClaims.

Lemma get_balance_of_absent_account_witness :
  generic_currency.accounts generic_currency.empty_ledger !! 7 = None
  /\ generic_currency.get_balance 7 generic_currency.empty_ledger
     = Ok (0, generic_currency.empty_ledger).
Proof.
  split; [reflexivity|].
  apply (get_balance_of_absent_account 7 generic_currency.empty_ledger).
  reflexivity.
Defined.

Lemma supply_equals_sum_of_balances_witness :
  generic_currency.conserved 1 generic_currency.empty_ledger
  /\ Forall (generic_currency.conserved 1)
            (generic_currency.history 1 generic_currency.empty_ledger
                                      samples.sample_ops).
Proof.
  split; [reflexivity|].
  apply (supply_equals_sum_of_balances 1 generic_currency.empty_ledger
                                       samples.sample_ops).
  reflexivity.
Defined.

Lemma transfer_checks_balance_witness :
  samples.everyone 7 = true
  /\ generic_currency.on_transfer samples.everyone samples.sample_transfer
                                  samples.sample_ledger
     = Err InsufficientBalance.
Proof.
  split; [reflexivity|].
  apply (transfer_checks_balance samples.everyone samples.sample_transfer
                                 samples.sample_ledger);
    [reflexivity | vm_compute; reflexivity].
Defined.

(** ** The connector *)

Module relay_facts.

Import generic_currency ledger_facts relay_contract.

Lemma read_balance_run R c w :
  in_currency (currency_type c) (get_balance R) w
  = Ok (connector_balance R c w, after_read (currency_type c) w).
Proof.
  unfold in_currency. now rewrite get_balance_run.
Qed.

Lemma ledger_of_after_read code w code' :
  ledger_of (after_read code w) code' = ledger_of w code'.
Proof.
  unfold ledger_of at 1, after_read; cbn.
  destruct (decide (code' = code)) as [->|Hne].
  - now rewrite lookup_insert_eq.
  - rewrite lookup_insert_ne by congruence. reflexivity.
Qed.

Lemma balances_after_read code w code' a :
  balance_of (ledger_of (after_read code w) code') a
  = balance_of (ledger_of w code') a.
Proof. now rewrite ledger_of_after_read. Qed.

Lemma connector_balance_after_read R c code w :
  connector_balance R c (after_read code w) = connector_balance R c w.
Proof. apply balances_after_read. Qed.

Section Connector.

Variable R : account_name.
Variable c : connector.
Variables (st : relay_state) (w : world).

Local Abbreviation bal := (connector_balance R c w).
Local Abbreviation w1 := (after_read (currency_type c) w).

Lemma convert_to_relay_underflow x :
  bal < x -> convert_to_relay R c x st w = Err InsufficientBalance.
Proof.
  intros H. unfold convert_to_relay.
  rewrite (bind_Ok _ _ _ _ _ (read_balance_run _ _ _)).
  apply bind_Err, lift_Err, sub_Err, H.
Qed.

Lemma convert_to_relay_run x :
  x <= bal -> 0 < Weight c * supply st ->
  to_relay_fits c bal st x ->
  convert_to_relay R c x st w
  = Ok ((to_relay_out c bal (supply st) x,
         {| supply := supply st + to_relay_out c bal (supply st) x;
            balance := balance st + to_relay_out c bal (supply st) x |}),
        w1).
Proof.
  intros Hx Hpos (F1 & F2 & F3 & F4 & F5 & F6 & F7 & F8 & F9).
  unfold convert_to_relay.
  rewrite (bind_Ok _ _ _ _ _ (read_balance_run _ _ _)).
  rewrite (bind_Ok _ _ _ _ _ (lift_Ok _ _ _ (sub_Ok _ _ Hx))).
  rewrite (bind_Ok _ _ _ _ _ (lift_Ok _ _ _ (mul_Ok _ _ F1))).
  rewrite (bind_Ok _ _ _ _ _ (lift_Ok _ _ _ (mul_Ok _ _ F2))).
  rewrite (bind_Ok _ _ _ _ _ (lift_Ok _ _ _ (div_Ok _ _ Hpos))).
  rewrite (bind_Ok _ _ _ _ _ (lift_Ok _ _ _ (mul_Ok _ _ F3))).
  rewrite (bind_Ok _ _ _ _ _ (lift_Ok _ _ _ (mul_Ok _ _ F4))).
  rewrite (bind_Ok _ _ _ _ _ (lift_Ok _ _ _ (add_Ok _ _ F5))).
  rewrite (bind_Ok _ _ _ _ _ (lift_Ok _ _ _ (mul_Ok _ _ F6))).
  erewrite bind_Ok
    by (apply lift_Ok, div_Ok; rewrite N.mul_add_distr_l;
        apply N.add_pos_l, Hpos).
  rewrite (bind_Ok _ _ _ _ _ (lift_Ok _ _ _ (mul_Ok _ _ F7))).
  rewrite (bind_Ok _ _ _ _ _ (lift_Ok _ _ _ (add_Ok _ _ F8))).
  cbn [supply balance].
  rewrite (bind_Ok _ _ _ _ _ (lift_Ok _ _ _ (add_Ok _ _ F9))).
  reflexivity.
Qed.

Lemma convert_to_relay_inv x out st' w' :
  convert_to_relay R c x st w = Ok ((out, st'), w') ->
  x <= bal /\ 0 < Weight c * supply st
  /\ to_relay_fits c bal st x
  /\ out = to_relay_out c bal (supply st) x
  /\ st' = {| supply := supply st + out; balance := balance st + out |}
  /\ w' = w1.
Proof.
  intros H. pose proof H as H0. unfold convert_to_relay in H.
  rewrite (bind_Ok _ _ _ _ _ (read_balance_run _ _ _)) in H.
  apply bind_lift_inv in H as (? & [-> Hx]%sub_inv & H).
  apply bind_lift_inv in H as (? & [-> F1]%mul_inv & H).
  apply bind_lift_inv in H as (? & [-> F2]%mul_inv & H).
  apply bind_lift_inv in H as (? & [-> Hpos]%div_inv & H).
  apply bind_lift_inv in H as (? & [-> F3]%mul_inv & H).
  apply bind_lift_inv in H as (? & [-> F4]%mul_inv & H).
  apply bind_lift_inv in H as (? & [-> F5]%add_inv & H).
  apply bind_lift_inv in H as (? & [-> F6]%mul_inv & H).
  apply bind_lift_inv in H as (? & [-> _]%div_inv & H).
  apply bind_lift_inv in H as (? & [-> F7]%mul_inv & H).
  apply bind_lift_inv in H as (? & [-> F8]%add_inv & H).
  cbn [supply balance] in H.
  apply bind_lift_inv in H as (? & [-> F9]%add_inv & _).
  assert (Hfit : to_relay_fits c bal st x) by (repeat split; assumption).
  rewrite convert_to_relay_run in H0 by assumption.
  injection H0 as <- <- <-. auto 10.
Qed.

Variable stray : N.

Local Abbreviation init_out :=
  (from_relay_init_out c bal (supply st) stray).

Lemma convert_from_relay_run x :
  0 < Weight c * supply st ->
  x <= supply st -> x <= balance st -> init_out <= bal ->
  0 < Weight c * (supply st - x) ->
  from_relay_fits c bal st stray x ->
  convert_from_relay_with R stray c x st w
  = Ok ((from_relay_out c bal (supply st) stray x,
         {| supply := supply st - x; balance := balance st - x |}),
        w1).
Proof.
  intros Hpos H1 H2 H3 Hpos' (F1 & F2 & F3 & F4 & F5 & F6).
  unfold convert_from_relay_with.
  rewrite (bind_Ok _ _ _ _ _ (read_balance_run _ _ _)).
  rewrite (bind_Ok _ _ _ _ _ (lift_Ok _ _ _ (mul_Ok _ _ F1))).
  rewrite (bind_Ok _ _ _ _ _ (lift_Ok _ _ _ (mul_Ok _ _ F2))).
  rewrite (bind_Ok _ _ _ _ _ (lift_Ok _ _ _ (div_Ok _ _ Hpos))).
  rewrite (bind_Ok _ _ _ _ _ (lift_Ok _ _ _ (mul_Ok _ _ F3))).
  rewrite (bind_Ok _ _ _ _ _ (lift_Ok _ _ _ (sub_Ok _ _ H1))).
  cbn [balance supply].
  rewrite (bind_Ok _ _ _ _ _ (lift_Ok _ _ _ (sub_Ok _ _ H2))).
  rewrite (bind_Ok _ _ _ _ _ (lift_Ok _ _ _ (sub_Ok _ _ H3))).
  rewrite (bind_Ok _ _ _ _ _ (lift_Ok _ _ _ (mul_Ok _ _ F4))).
  rewrite (bind_Ok _ _ _ _ _ (lift_Ok _ _ _ (mul_Ok _ _ F5))).
  rewrite (bind_Ok _ _ _ _ _ (lift_Ok _ _ _ (div_Ok _ _ Hpos'))).
  rewrite (bind_Ok _ _ _ _ _ (lift_Ok _ _ _ (mul_Ok _ _ F6))).
  reflexivity.
Qed.

Lemma convert_from_relay_inv x out st' w' :
  convert_from_relay_with R stray c x st w = Ok ((out, st'), w') ->
  0 < Weight c * supply st
  /\ x <= supply st /\ x <= balance st /\ init_out <= bal
  /\ 0 < Weight c * (supply st - x)
  /\ from_relay_fits c bal st stray x
  /\ out = from_relay_out c bal (supply st) stray x
  /\ st' = {| supply := supply st - x; balance := balance st - x |}
  /\ w' = w1.
Proof.
  intros H. pose proof H as H0. unfold convert_from_relay_with in H.
  rewrite (bind_Ok _ _ _ _ _ (read_balance_run _ _ _)) in H.
  apply bind_lift_inv in H as (? & [-> F1]%mul_inv & H).
  apply bind_lift_inv in H as (? & [-> F2]%mul_inv & H).
  apply bind_lift_inv in H as (? & [-> Hpos]%div_inv & H).
  apply bind_lift_inv in H as (? & [-> F3]%mul_inv & H).
  apply bind_lift_inv in H as (? & [-> H1]%sub_inv & H).
  cbn [balance supply] in H.
  apply bind_lift_inv in H as (? & [-> H2]%sub_inv & H).
  apply bind_lift_inv in H as (? & [-> H3]%sub_inv & H).
  apply bind_lift_inv in H as (? & [-> F4]%mul_inv & H).
  apply bind_lift_inv in H as (? & [-> F5]%mul_inv & H).
  apply bind_lift_inv in H as (? & [-> Hpos']%div_inv & H).
  apply bind_lift_inv in H as (? & [-> F6]%mul_inv & _).
  assert (Hfit : from_relay_fits c bal st stray x)
    by (repeat split; assumption).
  rewrite convert_from_relay_run in H0 by assumption.
  injection H0 as <- <- <-. auto 12.
Qed.

(** The only ways [convert_from_relay] aborts. *)
Lemma convert_from_relay_aborts x e :
  convert_from_relay_with R stray c x st w = Err e ->
  e = DegenerateCurve \/ e = InsufficientBalance \/ e = Overflow.
Proof.
  unfold convert_from_relay_with.
  rewrite (bind_Ok _ _ _ _ _ (read_balance_run _ _ _)).
  unfold bind, lift, Token.mul, Token.sub, Token.div, ret.
  repeat match goal with
         | |- context [if ?b then _ else _] =>
             destruct b; try (intros [= <-]; auto)
         end.
Qed.

End Connector.

(** A quotient below 2 truncates to at most 1. *)
Lemma price_at_most_one a d : a < 2 * d -> a / d <= 1.
Proof.
  intros H. apply N.lt_succ_r. apply N.Div0.div_lt_upper_bound. lia.
Qed.

Lemma div_le_num_den a a' d d' :
  0 < d -> a' <= a -> d <= d' -> a' / d' <= a / d.
Proof.
  intros Hd Ha Hdd.
  transitivity (a' / d).
  - apply N.div_le_compat_l. lia.
  - apply N.Div0.div_le_mono. lia.
Qed.

End relay_facts.

(** ** Claims about the connector *)

Section ConnectorClaims.

Import generic_currency ledger_facts relay_contract relay_facts.

(** C2, as amended (the formula of [convert_to_relay]).  Whenever
    [convert_to_relay] returns, it returns the [finalOut] of the spec's steps
    2 to 6, computed with quotients that truncate toward zero, and hands back
    the relay state with [finalOut] added to both its balance and its supply;
    the connector balance then held the input amount, Weight * supply was
    not zero, and every product and sum of the computation fitted 64 bits.
    Under these three conditions it does return. *)
Theorem convert_to_relay_formula R c amountIn st w :
  (forall out st' w',
      convert_to_relay R c amountIn st w = Ok ((out, st'), w') ->
      Z.of_N out
      = spec_convert_to_relay
          (Z.of_N (Weight c)) (Z.of_N (Base c))
          (Z.of_N (connector_balance R c w))
          (Z.of_N (supply st)) (Z.of_N amountIn)
      /\ st' = {| supply := supply st + out; balance := balance st + out |}
      /\ amountIn <= connector_balance R c w
      /\ Weight c * supply st <> 0
      /\ to_relay_fits c (connector_balance R c w) st amountIn)
  /\ (amountIn <= connector_balance R c w ->
      Weight c * supply st <> 0 ->
      to_relay_fits c (connector_balance R c w) st amountIn ->
      exists finalOut w',
        convert_to_relay R c amountIn st w
        = Ok ((finalOut, {| supply := supply st + finalOut;
                            balance := balance st + finalOut |}), w')).
Proof.
  split.
  - intros out st' w' H.
    apply convert_to_relay_inv in H as (Hx & Hpos & Hfit & -> & -> & _).
    split; [|split; [reflexivity|split; [exact Hx|split; [lia|exact Hfit]]]].
    unfold to_relay_out, to_relay_end_price, spec_convert_to_relay.
    cbn zeta.
    rewrite !N2Z.inj_mul, !N2Z.inj_quot, !N2Z.inj_mul, !N2Z.inj_add,
      !N2Z.inj_mul, !N2Z.inj_quot, !N2Z.inj_mul, N2Z.inj_sub by exact Hx.
    reflexivity.
  - intros Hx Hne Hfit. eexists. eexists.
    apply convert_to_relay_run; [exact Hx | lia | exact Hfit].
Qed.


(** C9 (supply minus balance).  A [convert_to_relay] that returns has added
    its output to both the supply and the balance of the relay state; a
    [convert_from_relay] that returns has subtracted its input from both
    (whatever the undeclared [in] stands for).  Either way the difference
    of supply and balance is the one before the conversion. *)
Theorem conversions_keep_supply_minus_balance
        R c x stray st w out st' w' :
  (convert_to_relay R c x st w = Ok ((out, st'), w') ->
     supply st' = supply st + out
     /\ balance st' = balance st + out
     /\ (Z.of_N (supply st') - Z.of_N (balance st')
         = Z.of_N (supply st) - Z.of_N (balance st))%Z)
  /\ (convert_from_relay_with R stray c x st w = Ok ((out, st'), w') ->
      x <= supply st /\ x <= balance st
      /\ supply st' = supply st - x
      /\ balance st' = balance st - x
      /\ (Z.of_N (supply st') - Z.of_N (balance st')
          = Z.of_N (supply st) - Z.of_N (balance st))%Z).
Proof.
  split; intros H.
  - apply convert_to_relay_inv in H as (_ & _ & _ & _ & -> & _).
    cbn [supply balance]. repeat split; lia.
  - apply convert_from_relay_inv
      in H as (_ & H1 & H2 & _ & _ & _ & _ & -> & _).
    cbn [supply balance]. repeat split; lia.
Qed.

(** C3, as amended (round trip).  Converting a positive amount [x] of a
    connector currency to relay and straight back, when it returns, returns
    at most [x] in each of two cases: the price of the connector balance
    truncates to at most 1 (balance * Base < 2 * Weight * supply); or the
    weight is one half (Base = 2 * Weight) and the start price is 1 or 2
    (the balance before the transfer is at most the supply and at least half
    of it), which is the case of the spec's own scenario. *)
Theorem round_trip_bound R c x st w z st2 w2 :
  0 < x ->
  round_trip R c x st w = Ok ((z, st2), w2) ->
  connector_balance R c w * Base c < 2 * (Weight c * supply st)
  \/ (Base c = 2 * Weight c
      /\ connector_balance R c w - x <= supply st
      /\ supply st <= 2 * (connector_balance R c w - x)) ->
  z <= x.
Proof.
  intros Hx H Hreg. unfold round_trip, bind in H.
  destruct (convert_to_relay R c x st w) as [[[y st1] w1]|e] eqn:E1;
    [|discriminate].
  apply convert_to_relay_inv in E1 as (Hle & Hpos & _ & Hy & -> & ->).
  unfold convert_from_relay in H.
  apply convert_from_relay_inv
    in H as (_ & _ & _ & Hi2 & _ & _ & -> & _ & _).
  rewrite connector_balance_after_read in *. cbn [supply] in *.
  set (bal := connector_balance R c w) in *.
  set (sup := supply st) in *.
  set (D := Weight c * sup) in *.
  unfold from_relay_out, from_relay_end_price. cbn zeta.
  rewrite N.add_sub. fold D.
  set (i2 := from_relay_init_out c bal (sup + y) y) in *.
  set (p2 := (bal - i2) * Base c / D).
  set (p1 := to_relay_end_price c bal sup x) in *.
  assert (Hyp : y = p1 * x) by exact Hy.
  (* it is enough that each leg's end price is at most 1 *)
  assert (Hgoal : p1 <= 1 -> (y = x -> p2 <= 1) -> p2 * y <= x).
  { intros Hp1 Hp2.
    assert (Hp1' : p1 = 0 \/ p1 = 1) by lia.
    destruct Hp1' as [Z0|Z1].
    - rewrite Hyp, Z0. lia.
    - assert (Hyx : y = x) by (rewrite Hyp, Z1; lia).
      specialize (Hp2 Hyx). rewrite Hyx.
      transitivity (1 * x); [now apply N.mul_le_mono_r | lia]. }
  apply Hgoal; clear Hgoal.
  - (* the end price of the way in *)
    unfold p1, to_relay_end_price. cbn zeta. apply price_at_most_one.
    destruct Hreg as [HA|(HB & Hprev & Hhalf)].
    + apply N.lt_le_trans with (2 * D); [exact HA|].
      apply N.mul_le_mono_l, N.mul_le_mono_l, N.le_add_r.
    + set (q0 := (bal - x) * Base c / D).
      assert (Hq0 : 1 <= q0).
      { apply N.div_le_lower_bound; [lia|].
        rewrite HB. unfold D. nia. }
      assert (Hq2 : bal - x = sup -> q0 = 2).
      { intros Heq. unfold q0. rewrite Heq, HB.
        replace (sup * (2 * Weight c)) with (2 * D) by (unfold D; lia).
        apply N.div_mul. lia. }
      assert (Hlt : bal < sup + q0 * x).
      { destruct (N.eq_dec (bal - x) sup) as [Heq|Hneq].
        - rewrite (Hq2 Heq). lia.
        - assert (x <= q0 * x) by nia. lia. }
      rewrite HB.
      assert (0 < Weight c) by (unfold D in Hpos; nia).
      replace (bal * (2 * Weight c)) with (2 * (Weight c * bal)) by lia.
      apply N.mul_lt_mono_pos_l; [lia|].
      apply N.mul_lt_mono_pos_l; [assumption|].
      unfold q0, D in Hlt. now rewrite HB in Hlt.
  - (* the end price of the way back, when all of [x] came through *)
    intros Hyx. unfold p2. apply price_at_most_one.
    destruct Hreg as [HA|(HB & Hprev & Hhalf)].
    + apply N.le_lt_trans with (bal * Base c); [|exact HA].
      apply N.mul_le_mono_r. lia.
    + assert (HW : 0 < Weight c) by (unfold D in Hpos; nia).
      set (q2 := bal * Base c / (Weight c * (sup + y))).
      assert (Hi : i2 = q2 * y) by reflexivity.
      assert (Hq2 : 1 <= q2).
      { apply N.div_le_lower_bound; [nia|]. rewrite HB, Hyx. nia. }
      assert (Hq2' : bal - x = sup -> q2 = 2).
      { intros Heq. unfold q2. rewrite HB, Hyx.
        replace (bal * (2 * Weight c))
          with (2 * (Weight c * (sup + x))) by nia.
        apply N.div_mul. nia. }
      assert (Hlt : bal - i2 < sup).
      { rewrite Hi, Hyx.
        destruct (N.eq_dec (bal - x) sup) as [Heq|Hneq].
        - rewrite (Hq2' Heq). unfold D in Hpos. nia.
        - assert (x <= q2 * x) by nia. lia. }
      rewrite HB. unfold D.
      replace ((bal - i2) * (2 * Weight c))
        with (2 * (Weight c * (bal - i2))) by lia.
      apply N.mul_lt_mono_pos_l; [lia|].
      apply N.mul_lt_mono_pos_l; assumption.
Qed.

End ConnectorClaims.

Section ConnectorWitnesses.

Import generic_currency relay_contract samples.

Lemma convert_to_relay_formula_witness :
  100 <= connector_balance 1 first (relay_world 1000100 0 even_state)
  /\ Weight first * supply even_state <> 0
  /\ to_relay_fits first
       (connector_balance 1 first (relay_world 1000100 0 even_state))
       even_state 100
  /\ exists finalOut w',
      convert_to_relay 1 first 100 even_state
                       (relay_world 1000100 0 even_state)
      = Ok ((finalOut, {| supply := supply even_state + finalOut;
                          balance := balance even_state + finalOut |}), w').
Proof.
  split; [vm_compute; discriminate|]. split; [vm_compute; discriminate|].
  split; [vm_compute; repeat split|].
  apply (convert_to_relay_formula 1 first 100 even_state
                                  (relay_world 1000100 0 even_state));
    [vm_compute; discriminate | vm_compute; discriminate
     | vm_compute; repeat split].
Defined.

(** C2 as first stated fails: with a connector balance of 10^10, all of it
    just credited, and a relay state of supply 1, the [finalOut] of the
    formula is 2 * 10^20, which is no 64-bit amount; the call aborts. *)
Lemma convert_to_relay_result_may_not_fit :
  10000000000
  <= connector_balance 1 first
       (relay_world 10000000000 0 {| supply := 1; balance := 1 |})
  /\ spec_convert_to_relay 500000 1000000 10000000000 1 10000000000
     = 200000000000000000000%Z
  /\ (Z.of_N Token.limit <= 200000000000000000000)%Z
  /\ convert_to_relay 1 first 10000000000 {| supply := 1; balance := 1 |}
       (relay_world 10000000000 0 {| supply := 1; balance := 1 |})
     = Err Overflow.
Proof.
  split; [vm_compute; discriminate|]. split; [vm_compute; reflexivity|].
  split; [vm_compute; discriminate | vm_compute; reflexivity].
Qed.



Lemma conversions_keep_supply_minus_balance_witness :
  convert_to_relay 1 first 100 even_state (relay_world 1000100 0 even_state)
  = Ok ((100, {| supply := 1000100; balance := 1000100 |}),
        relay_world 1000100 0 even_state)
  /\ (Z.of_N (supply {| supply := 1000100; balance := 1000100 |})
      - Z.of_N (balance {| supply := 1000100; balance := 1000100 |})
      = Z.of_N (supply even_state) - Z.of_N (balance even_state))%Z.
Proof.
  split; [vm_compute; reflexivity|].
  apply (proj1 (conversions_keep_supply_minus_balance
                  1 first 100 100 even_state
                  (relay_world 1000100 0 even_state)
                  100 {| supply := 1000100; balance := 1000100 |}
                  (relay_world 1000100 0 even_state))).
  vm_compute; reflexivity.
Defined.

(** C3 as first stated fails: with a connector balance of 4000000 against
    a supply of 1000000, 100 units go to 700 relay tokens and come back as
    4900 units. *)
Lemma round_trip_creates_value :
  round_trip 1 first 100 even_state (relay_world 4000000 0 even_state)
  = Ok ((4900, even_state), relay_world 4000000 0 even_state)
  /\ 100 < 4900.
Proof. split; vm_compute; reflexivity. Qed.

Lemma round_trip_bound_witness :
  0 < 100
  /\ round_trip 1 first 100 even_state (relay_world 1000100 0 even_state)
     = Ok ((100, even_state), relay_world 1000100 0 even_state)
  /\ 100 <= 100.
Proof.
  split; [reflexivity|]. split; [vm_compute; reflexivity|].
  apply (round_trip_bound 1 first 100 even_state
                          (relay_world 1000100 0 even_state)
                          100 even_state (relay_world 1000100 0 even_state));
    [reflexivity | vm_compute; reflexivity |].
  right. vm_compute. repeat split; discriminate.
Defined.

End ConnectorWitnesses.

(** ** Claims about the dispatcher *)

Section DispatcherClaims.

Import generic_currency relay_contract samples.

(** Whatever currency other than the relay's is asked for,
    [on_convert<ConnectorType>] converts back through [ConnectorType]. *)
Lemma on_convert_other_target R c trans args st w :
  to_currency_type args <> R ->
  on_convert R c trans args st w
  = bind (round_trip R c (quantity trans) st)
         (fun r => save_and_send (from trans) (snd r) (fst r)
                                 (min_return args)) w.
Proof.
  intros Hne. unfold on_convert, round_trip, bind.
  destruct (convert_to_relay R c (quantity trans) st w)
    as [[[y st1] w1]|e]; [|reflexivity].
  apply N.eqb_neq in Hne. rewrite Hne.
  destruct (convert_from_relay R c y st1 w1)
    as [[[z st2] w2]|e]; reflexivity.
Qed.

(** C5 (the code departs from the claim).  Trader 7 sends 100 of the first
    connector currency and asks for the second one.  The dispatcher pays out
    4900, which is the round trip through the first connector; going from
    relay through the second connector, as the claim says, would give 700.
    The relay amount in between (700) is sent to nobody. *)
Theorem first_to_second_converts_back_through_first :
  apply 1 2 3 everyone 2 N_transfer request
        (relay_world 4000000 1000000 even_state)
  = Ok (tt, {| ledgers := ledgers (relay_world 4000000 1000000 even_state);
               stored_state := even_state;
               sent := [(7, 4900)] |})
  /\ round_trip 1 (first_connector 2) 100 even_state
                (relay_world 4000000 1000000 even_state)
     = Ok ((4900, even_state), relay_world 4000000 1000000 even_state)
  /\ spec_connector_to_connector 1 (first_connector 2) (second_connector 3)
                                 100 even_state
                                 (relay_world 4000000 1000000 even_state)
     = Ok ((700, even_state), relay_world 4000000 1000000 even_state).
Proof. repeat split; vm_compute; reflexivity. Qed.

(** C6 (the code departs from the claim).  A notification whose code is the
    second connector currency, an account other than the relay and the
    first currency, is never unpacked: [apply] compares the code with the
    first currency a second time and ends in "unknown action
    notification". *)
Theorem second_currency_notification_is_rejected
        R F S auth action payload w :
  S <> R -> S <> F ->
  apply R F S auth S action payload w = Err UnknownActionNotification.
Proof.
  intros HR HF. unfold apply.
  apply N.eqb_neq in HR, HF. now rewrite HR, HF.
Qed.

End DispatcherClaims.

Lemma second_currency_notification_is_rejected_witness :
  3 <> 1 /\ 3 <> 2
  /\ relay_contract.apply 1 2 3 samples.everyone 3 N_transfer samples.request
       (samples.relay_world 4000000 1000000 samples.even_state)
     = Err UnknownActionNotification.
Proof.
  split; [discriminate|]. split; [discriminate|].
  apply (second_currency_notification_is_rejected
           1 2 3 samples.everyone N_transfer samples.request
           (samples.relay_world 4000000 1000000 samples.even_state));
    discriminate.
Defined.

(** * Further properties of the code *)

(** ** The ledger *)

Section LedgerCoverage.

Import generic_currency ledger_facts.

Lemma dom_put o b l : dom (accounts (put o b l)) = {[o]} ∪ dom (accounts l).
Proof. unfold put; cbn. apply dom_insert_L. Qed.

Lemma dom_after_transfer act l :
  dom (accounts l) ⊆ dom (accounts (after_transfer act l)).
Proof.
  unfold after_transfer; cbn zeta. rewrite !dom_put. set_solver.
Qed.

Lemma dom_after_issue Code act l :
  dom (accounts l) ⊆ dom (accounts (after_issue Code act l)).
Proof.
  unfold after_issue; cbn zeta.
  rewrite dom_put. unfold mint; cbn. set_solver.
Qed.

(** X1 (write, then read).  [set_balance] never fails; a [get_balance] of
    the same owner right after it returns the balance that was stored and
    changes nothing; the records of all other owners and the stats table are
    as before the write. *)
Theorem set_balance_then_get_balance owner b l :
  exists l',
    set_balance owner b l = Ok (tt, l')
    /\ get_balance owner l' = Ok (b, l')
    /\ (forall a, a <> owner -> accounts l' !! a = accounts l !! a)
    /\ stats l' = stats l.
Proof.
  exists (put owner b l). repeat split.
  - rewrite get_balance_run, balance_of_put.
    case_decide; [reflexivity | congruence].
  - intros a Hne. cbn. now apply lookup_insert_ne.
Qed.

(** X2 (reading twice).  [get_balance] never fails and no balance reads
    differently after it; a second read of the same owner returns the same
    amount and leaves the ledger exactly as the first read left it. *)
Theorem get_balance_twice owner l :
  exists b l',
    get_balance owner l = Ok (b, l')
    /\ get_balance owner l' = Ok (b, l')
    /\ (forall a, balance_of l' a = balance_of l a).
Proof.
  exists (balance_of l owner), l. repeat split; apply get_balance_run.
Qed.

(** X3 (transfer to oneself).  A transfer whose recipient is its sender,
    authorised by the sender, goes through exactly when the balance covers
    the amount, and then every balance is as before; with a balance below
    the amount it aborts like any other transfer. *)
Theorem transfer_to_self auth act l :
  auth (from act) = true ->
  to act = from act ->
  (quantity act <= balance_of l (from act) ->
     exists l', on_transfer auth act l = Ok (tt, l')
                /\ forall a, balance_of l' a = balance_of l a)
  /\ (balance_of l (from act) < quantity act ->
      on_transfer auth act l = Err InsufficientBalance).
Proof.
  intros Ha Hto. split.
  - intros Hle. exists (after_transfer act l).
    split; [now apply on_transfer_run|].
    intros a. rewrite balance_of_after_transfer. cbn zeta. rewrite Hto.
    case_decide; [subst a; lia | reflexivity].
  - now apply on_transfer_insufficient.
Qed.

(** X4 (there and back).  When [a] pays [b] an amount its balance covers and
    [b] pays the same amount back, both transfers go through and every
    balance is as before the first one. *)
Theorem transfer_there_and_back auth a b q m m' l :
  auth a = true -> auth b = true ->
  q <= balance_of l a ->
  exists l1 l2,
    on_transfer auth {| from := a; to := b; quantity := q; memo := m |} l
    = Ok (tt, l1)
    /\ on_transfer auth {| from := b; to := a; quantity := q; memo := m' |} l1
       = Ok (tt, l2)
    /\ forall x, balance_of l2 x = balance_of l x.
Proof.
  intros Ha Hb Hq.
  set (t1 := {| from := a; to := b; quantity := q; memo := m |}).
  set (t2 := {| from := b; to := a; quantity := q; memo := m' |}).
  exists (after_transfer t1 l), (after_transfer t2 (after_transfer t1 l)).
  assert (Hb1 : q <= balance_of (after_transfer t1 l) b).
  { rewrite balance_of_after_transfer. cbn.
    repeat case_decide; try congruence; lia. }
  repeat split.
  - now apply on_transfer_run.
  - now apply on_transfer_run.
  - intros x. rewrite !balance_of_after_transfer. cbn.
    repeat case_decide; subst; try congruence; lia.
Qed.

(** X5 (authority comes first).  Without the sender's authority a transfer
    aborts with [Unauthorized], whatever the balances and the amount; without
    the authority of the currency's own account so does an issue. *)
Theorem unauthorised_actions_abort Code auth l :
  (forall act, auth (from act) = false ->
               on_transfer auth act l = Err Unauthorized)
  /\ (forall act, auth Code = false ->
                  on_issue Code auth act l = Err Unauthorized).
Proof.
  split; intros act H.
  - now apply on_transfer_unauthorized.
  - now apply on_issue_unauthorized.
Qed.

(** X6 (records are never removed).  Whatever operations run, committed or
    aborted, an account that has a balance record keeps one: the set of
    owners with a record only grows along the history. *)
Theorem records_are_never_removed Code ops l :
  Forall (fun l' => dom (accounts l) ⊆ dom (accounts l'))
         (history Code l ops).
Proof.
  assert (Hstep : forall o l0,
             dom (accounts l0)
             ⊆ dom (accounts (commit (run_op Code o) l0))).
  { intros o l0.
    destruct (commit_cases Code o l0)
      as [->|[(auth & act & _ & _ & ->)|(auth & act & _ & _ & ->)]].
    - reflexivity.
    - apply dom_after_transfer.
    - apply dom_after_issue. }
  assert (Hgen : forall l0, dom (accounts l) ⊆ dom (accounts l0) ->
             Forall (fun l' => dom (accounts l) ⊆ dom (accounts l'))
                    (history Code l0 ops)).
  { induction ops as [|o ops IH]; intros l0 H0; cbn [history].
    - now constructor.
    - constructor; [exact H0|]. apply IH.
      etransitivity; [exact H0 | apply Hstep]. }
  now apply Hgen.
Qed.

End LedgerCoverage.

Lemma transfer_to_self_witness :
  samples.everyone 7 = true
  /\ exists l',
      generic_currency.on_transfer samples.everyone
        {| generic_currency.from := 7; generic_currency.to := 7;
           generic_currency.quantity := 4; generic_currency.memo := [] |}
        samples.sample_ledger = Ok (tt, l')
      /\ forall a, generic_currency.balance_of l' a
                   = generic_currency.balance_of samples.sample_ledger a.
Proof.
  split; [reflexivity|].
  apply (transfer_to_self samples.everyone
           {| generic_currency.from := 7; generic_currency.to := 7;
              generic_currency.quantity := 4; generic_currency.memo := [] |}
           samples.sample_ledger);
    [reflexivity | reflexivity | vm_compute; discriminate].
Defined.

Lemma transfer_there_and_back_witness :
  samples.everyone 7 = true
  /\ 4 <= generic_currency.balance_of samples.sample_ledger 7
  /\ exists l1 l2,
      generic_currency.on_transfer samples.everyone
        {| generic_currency.from := 7; generic_currency.to := 8;
           generic_currency.quantity := 4; generic_currency.memo := [] |}
        samples.sample_ledger = Ok (tt, l1)
      /\ generic_currency.on_transfer samples.everyone
           {| generic_currency.from := 8; generic_currency.to := 7;
              generic_currency.quantity := 4; generic_currency.memo := [] |}
           l1 = Ok (tt, l2)
      /\ forall x, generic_currency.balance_of l2 x
                   = generic_currency.balance_of samples.sample_ledger x.
Proof.
  split; [reflexivity|]. split; [vm_compute; discriminate|].
  apply (transfer_there_and_back samples.everyone 7 8 4 [] []
                                 samples.sample_ledger);
    [reflexivity | reflexivity | vm_compute; discriminate].
Defined.

(** ** The connector *)

Section ConnectorCoverage.

Import generic_currency ledger_facts relay_contract relay_facts.

(** X7 (conversions move no funds).  A conversion that returns has read the
    connector balance and nothing more: every balance of every currency
    reads as before, the ledgers of the other currencies, the stored relay
    state and the payments sent are untouched.  Only the relay state handed
    back to the caller differs. *)
Theorem conversions_move_no_funds R c x stray st w out st' w' :
  convert_to_relay R c x st w = Ok ((out, st'), w')
  \/ convert_from_relay_with R stray c x st w = Ok ((out, st'), w') ->
  (forall code a,
      balance_of (ledger_of w' code) a = balance_of (ledger_of w code) a)
  /\ (forall code, code <> currency_type c ->
                   ledgers w' !! code = ledgers w !! code)
  /\ stored_state w' = stored_state w
  /\ sent w' = sent w.
Proof.
  intros H.
  assert (Hw : w' = after_read (currency_type c) w).
  { destruct H as [H|H].
    - now apply convert_to_relay_inv in H as (_ & _ & _ & _ & _ & ->).
    - now apply convert_from_relay_inv
        in H as (_ & _ & _ & _ & _ & _ & _ & _ & ->). }
  subst w'. repeat split.
  - intros. apply balances_after_read.
  - intros code Hne. cbn. rewrite lookup_insert_ne by congruence. reflexivity.
Qed.

(** X8 (redeeming nothing).  Whenever [convert_from_relay] returns on the
    relay amount zero, it returns zero and hands the relay state back as it
    was, whatever the undeclared [in] stands for. *)
Theorem convert_from_relay_zero R c stray st w out st' w' :
  convert_from_relay_with R stray c 0 st w = Ok ((out, st'), w') ->
  out = 0 /\ st' = st.
Proof.
  intros H.
  apply convert_from_relay_inv
    in H as (_ & _ & _ & _ & _ & _ & -> & -> & _).
  unfold from_relay_out. rewrite N.mul_0_r, !N.sub_0_r. now destruct st.
Qed.

(** X9 (the whole supply cannot be redeemed).  [convert_from_relay] lowers
    the supply by the amount before it computes the end price, so an amount
    equal to the whole supply never returns: the call aborts.  As long as
    the products before the end price fit 64 bits it aborts with
    [DegenerateCurve], at the latest when the end price divides by the
    emptied supply, or with [InsufficientBalance]; the one other abort is a
    product that does not fit ([Overflow]). *)
Theorem redeeming_the_whole_supply_aborts R c stray st w :
  (convert_from_relay_with R stray c (supply st) st w = Err DegenerateCurve
   \/ convert_from_relay_with R stray c (supply st) st w
      = Err InsufficientBalance
   \/ convert_from_relay_with R stray c (supply st) st w = Err Overflow)
  /\ (connector_balance R c w * Base c < Token.limit ->
      Weight c * supply st < Token.limit ->
      from_relay_init_out c (connector_balance R c w) (supply st) stray
      < Token.limit ->
      convert_from_relay_with R stray c (supply st) st w = Err DegenerateCurve
      \/ convert_from_relay_with R stray c (supply st) st w
         = Err InsufficientBalance).
Proof.
  assert (Herr : exists e,
             convert_from_relay_with R stray c (supply st) st w = Err e).
  { destruct (convert_from_relay_with R stray c (supply st) st w)
      as [[[out st'] w']|e] eqn:E; [|eauto].
    apply convert_from_relay_inv in E as (_ & _ & _ & _ & Hpos & _).
    rewrite N.sub_diag, N.mul_0_r in Hpos. lia. }
  destruct Herr as (e & He). split.
  - rewrite He.
    destruct (convert_from_relay_aborts R c st w stray _ _ He)
      as [->|[->| ->]]; auto.
  - intros F1 F2 F3. rewrite He.
    destruct (convert_from_relay_aborts R c st w stray _ _ He)
      as [->|[->| ->]]; auto.
    exfalso. revert He. unfold convert_from_relay_with.
    rewrite (bind_Ok _ _ _ _ _ (read_balance_run _ _ _)).
    rewrite (bind_Ok _ _ _ _ _ (lift_Ok _ _ _ (mul_Ok _ _ F1))).
    rewrite (bind_Ok _ _ _ _ _ (lift_Ok _ _ _ (mul_Ok _ _ F2))).
    destruct (N.eq_0_gt_0_cases (Weight c * supply st)) as [H0|H0].
    { rewrite H0. discriminate. }
    rewrite (bind_Ok _ _ _ _ _ (lift_Ok _ _ _ (div_Ok _ _ H0))).
    rewrite (bind_Ok _ _ _ _ _ (lift_Ok _ _ _ (mul_Ok _ _ F3))).
    rewrite (bind_Ok _ _ _ _ _
               (lift_Ok _ _ _ (sub_Ok _ _ (N.le_refl (supply st))))).
    cbn [balance supply].
    destruct (N.le_gt_cases (supply st) (balance st)) as [H2|H2];
      [|rewrite (bind_Err _ _ _ _ (lift_Err _ _ _ (sub_Err _ _ H2)));
        discriminate].
    rewrite (bind_Ok _ _ _ _ _ (lift_Ok _ _ _ (sub_Ok _ _ H2))).
    match goal with
    | |- context [Token.sub ?a ?b] =>
        destruct (N.le_gt_cases b a) as [H3|H3];
        [|rewrite (bind_Err _ _ _ _ (lift_Err _ _ _ (sub_Err _ _ H3)));
          discriminate]
    end.
    rewrite (bind_Ok _ _ _ _ _ (lift_Ok _ _ _ (sub_Ok _ _ H3))).
    erewrite bind_Ok.
    2:{ apply lift_Ok, mul_Ok.
        eapply N.le_lt_trans; [|exact F1].
        apply N.mul_le_mono_r, N.le_sub_l. }
    rewrite N.sub_diag.
    erewrite bind_Ok
      by (apply lift_Ok, mul_Ok; rewrite N.mul_0_r; reflexivity).
    rewrite N.mul_0_r. discriminate.
Qed.

(** X10 (never above the spot price).  The amount [convert_to_relay] returns
    is at most the input times the truncated spot price
    balance * Base / (Weight * supply) of the relay state it was given. *)
Theorem convert_to_relay_at_most_spot R c x st w out st' w' :
  convert_to_relay R c x st w = Ok ((out, st'), w') ->
  out <= connector_balance R c w * Base c / (Weight c * supply st) * x.
Proof.
  intros H. apply convert_to_relay_inv in H as (_ & Hpos & _ & -> & _ & _).
  unfold to_relay_out, to_relay_end_price.
  apply N.mul_le_mono_r.
  apply div_le_num_den; [exact Hpos | lia |].
  apply N.mul_le_mono_l, N.le_add_r.
Qed.

(** X17 (redeeming, never above the spot price).  The amount
    [convert_from_relay] returns is at most the redeemed amount times the
    truncated price balance * Base / (Weight * (supply - amount)) at the
    lowered supply, whatever the undeclared [in] stands for. *)
Theorem convert_from_relay_at_most_spot R c x stray st w out st' w' :
  convert_from_relay_with R stray c x st w = Ok ((out, st'), w') ->
  out <= connector_balance R c w * Base c / (Weight c * (supply st - x)) * x.
Proof.
  intros H.
  apply convert_from_relay_inv
    in H as (_ & _ & _ & _ & Hpos & _ & -> & _ & _).
  unfold from_relay_out, from_relay_end_price.
  apply N.mul_le_mono_r.
  apply div_le_num_den; [exact Hpos | | lia].
  apply N.mul_le_mono_r. lia.
Qed.

End ConnectorCoverage.

Lemma conversions_move_no_funds_witness :
  relay_contract.convert_to_relay 1 samples.first 100 samples.even_state
    (samples.relay_world 1000100 0 samples.even_state)
  = Ok ((100, {| relay_contract.supply := 1000100;
                 relay_contract.balance := 1000100 |}),
        samples.relay_world 1000100 0 samples.even_state)
  /\ relay_contract.sent (samples.relay_world 1000100 0 samples.even_state)
     = relay_contract.sent (samples.relay_world 1000100 0 samples.even_state).
Proof.
  split; [vm_compute; reflexivity|].
  apply (conversions_move_no_funds
           1 samples.first 100 100 samples.even_state
           (samples.relay_world 1000100 0 samples.even_state)
           100 {| relay_contract.supply := 1000100;
                  relay_contract.balance := 1000100 |}
           (samples.relay_world 1000100 0 samples.even_state)).
  left. vm_compute; reflexivity.
Defined.

Lemma convert_from_relay_zero_witness :
  relay_contract.convert_from_relay_with 1 0 samples.first 0
    samples.even_state (samples.relay_world 1000000 0 samples.even_state)
  = Ok ((0, samples.even_state),
        samples.relay_world 1000000 0 samples.even_state)
  /\ 0 = 0 /\ samples.even_state = samples.even_state.
Proof.
  split; [vm_compute; reflexivity|].
  apply (convert_from_relay_zero 1 samples.first 0 samples.even_state
           (samples.relay_world 1000000 0 samples.even_state)
           0 samples.even_state
           (samples.relay_world 1000000 0 samples.even_state)).
  vm_compute; reflexivity.
Defined.

Lemma convert_to_relay_at_most_spot_witness :
  relay_contract.convert_to_relay 1 samples.first 100 samples.even_state
    (samples.relay_world 4000000 0 samples.even_state)
  = Ok ((700, {| relay_contract.supply := 1000700;
                 relay_contract.balance := 1000700 |}),
        samples.relay_world 4000000 0 samples.even_state)
  /\ 700 <= relay_contract.connector_balance 1 samples.first
              (samples.relay_world 4000000 0 samples.even_state)
            * relay_contract.Base samples.first
            / (relay_contract.Weight samples.first
               * relay_contract.supply samples.even_state) * 100.
Proof.
  split; [vm_compute; reflexivity|].
  apply (convert_to_relay_at_most_spot
           1 samples.first 100 samples.even_state
           (samples.relay_world 4000000 0 samples.even_state)
           700 {| relay_contract.supply := 1000700;
                  relay_contract.balance := 1000700 |}
           (samples.relay_world 4000000 0 samples.even_state)).
  vm_compute; reflexivity.
Defined.

(** ** The dispatcher *)

Section DispatcherCoverage.

Import generic_currency ledger_facts relay_contract relay_facts.

(** X11 (no conversion to the currency received).  A conversion request
    whose target is the currency of the transfer itself aborts with "cannot
    convert to self", for the relay currency and for both connector
    currencies, before the relay state is read or any price is computed. *)
Theorem conversion_to_self_is_rejected R F S k trans args w :
  unpack_relay_args (memo trans) = Ok args ->
  to_currency_type args = code_of R F S k ->
  start_convert R F S k trans w = Err SelfConversionRejected.
Proof.
  intros Hu Hself. unfold start_convert.
  rewrite (bind_Ok _ _ _ _ _ (lift_Ok _ _ _ Hu)).
  apply bind_Err. rewrite Hself, N.eqb_refl. reflexivity.
Qed.

(** X12 (unknown target of a relay-token conversion).  When relay tokens
    arrive with a request for a currency that is none of the three, the
    conversion aborts with "invalid to currency". *)
Theorem relay_conversion_to_unknown_currency R F S trans args w :
  unpack_relay_args (memo trans) = Ok args ->
  to_currency_type args <> R ->
  to_currency_type args <> F ->
  to_currency_type args <> S ->
  start_convert R F S KRelay trans w = Err InvalidToCurrency.
Proof.
  intros Hu HR HF HS. unfold start_convert.
  rewrite (bind_Ok _ _ _ _ _ (lift_Ok _ _ _ Hu)).
  apply N.eqb_neq in HR, HF, HS.
  cbn [code_of]. rewrite HR. cbn [negb assert].
  rewrite (bind_Ok _ _ w tt w) by reflexivity.
  rewrite (bind_Ok _ _ w (stored_state w) w) by reflexivity.
  unfold on_convert_relay. now rewrite HF, HS.
Qed.

(** X13 (a connector transfer does not look at the target).  When a
    connector currency arrives, every target other than the relay currency
    is handled alike: two requests with the same minimum return and any two
    targets other than the relay give the same result, be it a payment or
    an abort. *)
Theorem connector_conversion_ignores_target R c trans args args' st w :
  to_currency_type args <> R ->
  to_currency_type args' <> R ->
  min_return args = min_return args' ->
  on_convert R c trans args st w = on_convert R c trans args' st w.
Proof.
  intros H H' Hm. unfold on_convert.
  apply N.eqb_neq in H, H'. rewrite H, H', Hm. reflexivity.
Qed.

(** X14 (relay tokens between users).  A transfer of the relay currency
    that is not addressed to the relay account is a ledger transfer and
    nothing else: when the sender authorised it and holds the amount,
    [apply] debits and credits in the relay currency's ledger, and leaves
    the other ledgers, the stored relay state and the payments sent as they
    were, whatever the memo says. *)
Theorem relay_transfer_between_users R F S auth trans w :
  to trans <> R ->
  auth (from trans) = true ->
  quantity trans <= balance_of (ledger_of w R) (from trans) ->
  apply R F S auth R N_transfer trans w
  = Ok (tt, {| ledgers := <[R := after_transfer trans (ledger_of w R)]>
                            (ledgers w);
               stored_state := stored_state w;
               sent := sent w |}).
Proof.
  intros Hto Ha Hq. unfold apply. rewrite !N.eqb_refl.
  unfold on_relay_transfer, bind, in_currency.
  rewrite on_transfer_run by assumption.
  apply N.eqb_neq in Hto. now rewrite Hto.
Qed.

(** X15 (a connector transfer that is not for the relay).  A notification
    of a first-currency transfer that is not addressed to the relay account
    is accepted without any effect when the relay account sent it, and
    aborts with "received unexpected notification of transfer" otherwise. *)
Theorem connector_transfer_not_to_relay R F S auth trans w :
  F <> R ->
  to trans <> R ->
  (from trans = R ->
     apply R F S auth F N_transfer trans w = Ok (tt, w))
  /\ (from trans <> R ->
      apply R F S auth F N_transfer trans w = Err UnexpectedNotification).
Proof.
  intros HF Hto. unfold apply.
  apply N.eqb_neq in HF, Hto.
  rewrite HF, !N.eqb_refl. unfold on_currency_transfer. rewrite Hto.
  split; intros Hfrom.
  - now rewrite Hfrom, N.eqb_refl.
  - apply N.eqb_neq in Hfrom. now rewrite Hfrom.
Qed.

(** X16 (actions other than transfer).  For the relay currency and the
    first currency, [apply] lets every action other than a transfer pass
    without any effect. *)
Theorem other_actions_have_no_effect R F S auth code action payload w :
  action <> N_transfer ->
  code = R \/ code = F ->
  apply R F S auth code action payload w = Ok (tt, w).
Proof.
  intros Hact Hcode. unfold apply.
  apply N.eqb_neq in Hact. rewrite Hact.
  destruct (N.eqb_spec code R) as [_|HR]; [reflexivity|].
  destruct Hcode as [-> | ->]; [congruence|].
  now rewrite N.eqb_refl.
Qed.

End DispatcherCoverage.

Lemma convert_from_relay_at_most_spot_witness :
  relay_contract.convert_from_relay_with 1 700 samples.first 700
    {| relay_contract.supply := 1000700; relay_contract.balance := 1000700 |}
    (samples.relay_world 4000000 0 samples.even_state)
  = Ok ((4900, samples.even_state),
        samples.relay_world 4000000 0 samples.even_state)
  /\ 4900 <= relay_contract.connector_balance 1 samples.first
               (samples.relay_world 4000000 0 samples.even_state)
             * relay_contract.Base samples.first
             / (relay_contract.Weight samples.first
                * (relay_contract.supply
                     {| relay_contract.supply := 1000700;
                        relay_contract.balance := 1000700 |} - 700)) * 700.
Proof.
  split; [vm_compute; reflexivity|].
  apply (convert_from_relay_at_most_spot
           1 samples.first 700 700
           {| relay_contract.supply := 1000700;
              relay_contract.balance := 1000700 |}
           (samples.relay_world 4000000 0 samples.even_state)
           4900 samples.even_state
           (samples.relay_world 4000000 0 samples.even_state)).
  vm_compute; reflexivity.
Defined.

Lemma conversion_to_self_is_rejected_witness :
  relay_contract.unpack_relay_args [2; 0]
  = Ok {| relay_contract.to_currency_type := 2;
          relay_contract.min_return := 0 |}
  /\ relay_contract.start_convert 1 2 3 relay_contract.KFirst
       {| generic_currency.from := 7; generic_currency.to := 1;
          generic_currency.quantity := 100; generic_currency.memo := [2; 0] |}
       (samples.relay_world 1000100 0 samples.even_state)
     = Err SelfConversionRejected.
Proof.
  split; [reflexivity|].
  apply (conversion_to_self_is_rejected 1 2 3 relay_contract.KFirst
           {| generic_currency.from := 7; generic_currency.to := 1;
              generic_currency.quantity := 100;
              generic_currency.memo := [2; 0] |}
           {| relay_contract.to_currency_type := 2;
              relay_contract.min_return := 0 |}
           (samples.relay_world 1000100 0 samples.even_state));
    reflexivity.
Defined.

Lemma relay_conversion_to_unknown_currency_witness :
  relay_contract.unpack_relay_args [9; 0]
  = Ok {| relay_contract.to_currency_type := 9;
          relay_contract.min_return := 0 |}
  /\ relay_contract.start_convert 1 2 3 relay_contract.KRelay
       {| generic_currency.from := 7; generic_currency.to := 1;
          generic_currency.quantity := 100; generic_currency.memo := [9; 0] |}
       (samples.relay_world 1000000 0 samples.even_state)
     = Err InvalidToCurrency.
Proof.
  split; [reflexivity|].
  apply (relay_conversion_to_unknown_currency 1 2 3
           {| generic_currency.from := 7; generic_currency.to := 1;
              generic_currency.quantity := 100;
              generic_currency.memo := [9; 0] |}
           {| relay_contract.to_currency_type := 9;
              relay_contract.min_return := 0 |}
           (samples.relay_world 1000000 0 samples.even_state));
    [reflexivity | discriminate | discriminate | discriminate].
Defined.

Lemma connector_conversion_ignores_target_witness :
  3 <> 1 /\ 9 <> 1
  /\ relay_contract.on_convert 1 samples.first samples.request
       {| relay_contract.to_currency_type := 3;
          relay_contract.min_return := 0 |}
       samples.even_state
       (samples.relay_world 4000000 1000000 samples.even_state)
     = relay_contract.on_convert 1 samples.first samples.request
         {| relay_contract.to_currency_type := 9;
            relay_contract.min_return := 0 |}
         samples.even_state
         (samples.relay_world 4000000 1000000 samples.even_state).
Proof.
  split; [discriminate|]. split; [discriminate|].
  apply (connector_conversion_ignores_target 1 samples.first samples.request
           {| relay_contract.to_currency_type := 3;
              relay_contract.min_return := 0 |}
           {| relay_contract.to_currency_type := 9;
              relay_contract.min_return := 0 |}
           samples.even_state
           (samples.relay_world 4000000 1000000 samples.even_state));
    [discriminate | discriminate | reflexivity].
Defined.

Lemma relay_transfer_between_users_witness :
  8 <> 1
  /\ samples.everyone 7 = true
  /\ exists w',
      relay_contract.apply 1 2 3 samples.everyone 1 N_transfer
        {| generic_currency.from := 7; generic_currency.to := 8;
           generic_currency.quantity := 4; generic_currency.memo := [] |}
        {| relay_contract.ledgers := {[ 1 := samples.sample_ledger ]};
           relay_contract.stored_state := samples.even_state;
           relay_contract.sent := [] |}
      = Ok (tt, w')
      /\ relay_contract.stored_state w' = samples.even_state
      /\ relay_contract.sent w' = [].
Proof.
  split; [discriminate|]. split; [reflexivity|].
  eexists. split.
  - apply (relay_transfer_between_users 1 2 3 samples.everyone
             {| generic_currency.from := 7; generic_currency.to := 8;
                generic_currency.quantity := 4; generic_currency.memo := [] |}
             {| relay_contract.ledgers := {[ 1 := samples.sample_ledger ]};
                relay_contract.stored_state := samples.even_state;
                relay_contract.sent := [] |});
      [discriminate | reflexivity | vm_compute; discriminate].
  - split; reflexivity.
Defined.

Lemma connector_transfer_not_to_relay_witness :
  2 <> 1 /\ 8 <> 1
  /\ relay_contract.apply 1 2 3 samples.everyone 2 N_transfer
       {| generic_currency.from := 1; generic_currency.to := 8;
          generic_currency.quantity := 4; generic_currency.memo := [] |}
       (samples.relay_world 1000000 0 samples.even_state)
     = Ok (tt, samples.relay_world 1000000 0 samples.even_state).
Proof.
  split; [discriminate|]. split; [discriminate|].
  apply (connector_transfer_not_to_relay 1 2 3 samples.everyone
           {| generic_currency.from := 1; generic_currency.to := 8;
              generic_currency.quantity := 4; generic_currency.memo := [] |}
           (samples.relay_world 1000000 0 samples.even_state));
    [discriminate | discriminate | reflexivity].
Defined.

Lemma other_actions_have_no_effect_witness :
  N_issue <> N_transfer
  /\ relay_contract.apply 1 2 3 samples.everyone 2 N_issue samples.request
       (samples.relay_world 1000000 0 samples.even_state)
     = Ok (tt, samples.relay_world 1000000 0 samples.even_state).
Proof.
  split; [discriminate|].
  apply (other_actions_have_no_effect 1 2 3 samples.everyone 2 N_issue
           samples.request
           (samples.relay_world 1000000 0 samples.even_state));
    [discriminate | right; reflexivity].
Defined.
